(** * Kerr geodesic utilities of FastEMRIWaveforms: a shallow embedding

    The development follows [src/src/Utility.cc] (sanity check, elliptic
    integrals, constants of motion, radial roots, Mino and coordinate
    frequencies, separatrix, inclination mapping, their vectorized forms and
    the secondary-spin correction) and the derivative functions of
    [src/src/ode_base_example.cc] ([pn5] and the two [deriv_func]).

    - A C [double] is a primitive binary64 float: [+ - * /], [sqrt], [abs]
      and the comparisons are the IEEE operations, evaluated as written
      (no contraction, no excess precision).  [abs] on a double is the
      floating overload.
    - [printf] appends an event to an output log; a C++ [throw] ends the
      computation with the exception.  Both are threaded by the monad [Comp].
    - Output pointers become returned tuples; output arrays are lists
      updated by index.  The [omp parallel for] loops run their iterations
      in index order.
    - libm's [pow] and [log], the GSL special functions, the GSL root solver
      and the macros of the absent header [global.h] are operations of the
      class [Env]: every theorem holds for all of them.  A GSL function
      hands its status back to the caller (the error handler is off, as
      [solver] sets it).  The incomplete elliptic integrals of GSL and the
      flux series of the absent header [dIdt8H_5PNe10.h] are operations of
      the classes [GslIncomplete] and [Pn5Env].
    - Where one C expression calls several elliptic integrals, the calls
      are made in the order of the text. *)

From Stdlib Require Import Reals Lra.
From Stdlib Require Import Floats ZArith String List Lia Bool.
From stdpp Require Import base list.

Set Warnings "-inexact-float".
Local Open Scope float_scope.

(** ** C doubles *)

(** [x != y] on doubles: true as soon as one side is a NaN. *)
Definition neb (x y : float) : bool := negb (x =? y).
(** [x > y] on doubles. *)
Definition gtb (x y : float) : bool := y <? x.

(** [abs] applied to a double selects the floating overload. *)
Definition abs (x : float) : float := PrimFloat.abs x.

(** [M_PI] of [math.h]. *)
Definition M_PI : float := 0x1.921fb54442d18p+1.

#[global] Instance float_inhabited : Inhabited float := populate 0.

(** ** Output, exceptions and the computation monad *)

(** One call of [printf] (or of [cout <<]): the format and its arguments. *)
Inductive event : Type :=
| printf (format : string) (args : list float).

Inductive exception : Type :=
| invalid_argument (what : string) (args : list float)
| std_exception.

(** How a call ends: it returns, it throws, or the model ran out of fuel
    (only the mutual recursion of [solver] and [get_separatrix] takes fuel). *)
Inductive result (A : Type) : Type :=
| Return (v : A)
| Throw (e : exception)
| OutOfFuel.
Arguments Return {A} v.
Arguments Throw {A} e.
Arguments OutOfFuel {A}.

(** What was printed, and how the call ended. *)
Definition Comp (A : Type) : Type := (list event * result A)%type.

Definition ret {A} (v : A) : Comp A := ([], Return v).
Definition throw {A} (e : exception) : Comp A := ([], Throw e).
Definition print (fmt : string) (args : list float) : Comp unit :=
  ([printf fmt args], Return tt).
Definition out_of_fuel {A} : Comp A := ([], OutOfFuel).

Definition bind {A B} (c : Comp A) (k : A -> Comp B) : Comp B :=
  match c with
  | (l, Return v) => let '(l', r) := k v in (l ++ l', r)
  | (l, Throw e) => (l, Throw e)
  | (l, OutOfFuel) => (l, OutOfFuel)
  end.

Notation "x <- c ;; k" := (bind c (fun x => k))
  (at level 20, c at level 99, k at level 200, only parsing).
Notation "' pat <- c ;; k" := (bind c (fun x => match x with pat => k end))
  (at level 20, pat pattern, c at level 99, k at level 200, only parsing).
Notation "c ;;; k" := (bind c (fun _ => k))
  (at level 100, k at level 200, only parsing).

(** [for (int i = 0; i < n; i += 1) body], run in index order. *)
Fixpoint for_loop {S} (count i : nat) (body : nat -> S -> Comp S) (st : S)
  : Comp S :=
  match count with
  | O => ret st
  | S count' => st' <- body i st ;; for_loop count' (Datatypes.S i) body st'
  end.

(** ** GSL status codes ([gsl_errno.h]) *)

Definition GSL_SUCCESS : Z := 0.
Definition GSL_CONTINUE : Z := (-2).

(** ** The environment: libm, GSL and [global.h] *)

Class Env : Type := {
  (** libm *)
  pow : float -> float -> float;
  log : float -> float;
  (** [global.h] is not part of the sources: its macros are parameters. *)
  Power : float -> float -> float;
  Sqrt : float -> float;
  Pi : float;
  (** [gsl_sf_ellint.h]: the status and [result.val], at [GSL_PREC_DOUBLE]. *)
  gsl_sf_ellint_Kcomp_e : float -> Z * float;
  gsl_sf_ellint_Ecomp_e : float -> Z * float;
  gsl_sf_ellint_Pcomp_e : float -> float -> Z * float;
  (** [gsl_roots.h]: a bracketing solver holds its function and its state;
      [set] and [iterate] give a status and the new state. *)
  gsl_root_fsolver : Type;
  gsl_root_fsolver_set :
    (float -> float) -> float -> float -> Z * gsl_root_fsolver;
  gsl_root_fsolver_iterate : gsl_root_fsolver -> Z * gsl_root_fsolver;
  gsl_root_fsolver_root : gsl_root_fsolver -> float;
  gsl_root_fsolver_x_lower : gsl_root_fsolver -> float;
  gsl_root_fsolver_x_upper : gsl_root_fsolver -> float;
  gsl_root_test_interval : float -> float -> float -> float -> Z;
}.

(** [struct params_holder]. *)
Module params_holder.
Record t : Type :=
  mk { a : float; p : float; e : float; x : float; Y : float }.
End params_holder.

Section Utility.
Context {env : Env}.

(** ** sanity_check *)

Definition sanity_check (a p e Y : float) : Comp Z :=
  let res := 0%Z in
  if p <? 0 then ret 1%Z else
  if (gtb e 1) || (e <? 0) then ret 1%Z else
  if (gtb Y 1) || (Y <? -1) then ret 1%Z else
  if (gtb a 1) || (a <? 0) then ret 1%Z else
  (if (res =? 1)%Z
   then print "a, p, e, Y = %f %f %f %f " [a; p; e; Y]
   else ret tt) ;;;
  ret res.

(** ** Elliptic integrals in Mathematica's conventions *)

Definition EllipticK (k : float) : Comp float :=
  let '(status, val) := gsl_sf_ellint_Kcomp_e (sqrt k) in
  if (status =? GSL_SUCCESS)%Z then ret val
  else throw (invalid_argument "EllipticK failed with argument k: %e" [k]).

Definition EllipticE (k : float) : Comp float :=
  let '(status, val) := gsl_sf_ellint_Ecomp_e (sqrt k) in
  if (status =? GSL_SUCCESS)%Z then ret val
  else throw (invalid_argument "EllipticE failed with argument k: %e" [k]).

Definition EllipticPi (n k : float) : Comp float :=
  let '(status, val) := gsl_sf_ellint_Pcomp_e (sqrt k) (- n) in
  if (status =? GSL_SUCCESS)%Z then ret val
  else
    print "55: %e\n" [k] ;;;
    throw (invalid_argument
             "EllipticPi failed with arguments (k,n): (%e,%e)" [k; n]).

(** ** Constants of motion *)

Definition CapitalDelta (r a : float) : float :=
  pow r 2 - 2 * r + pow a 2.

Definition f (r a zm : float) : float :=
  pow r 4 + pow a 2 * (r * (r + 2) + pow zm 2 * CapitalDelta r a).

Definition g (r a zm : float) : float :=
  2 * a * r.

Definition h (r a zm : float) : float :=
  r * (r - 2) + pow zm 2 / (1 - pow zm 2) * CapitalDelta r a.

Definition d (r a zm : float) : float :=
  (pow r 2 + pow a 2 * pow zm 2) * CapitalDelta r a.

Definition KerrGeoEnergy (a p e x : float) : float :=
  let r1 := p / (1 - e) in
  let r2 := p / (1 + e) in
  let zm := sqrt (1 - pow x 2) in
  let Kappa := d r1 a zm * h r2 a zm - h r1 a zm * d r2 a zm in
  let Epsilon := d r1 a zm * g r2 a zm - g r1 a zm * d r2 a zm in
  let Rho := f r1 a zm * h r2 a zm - h r1 a zm * f r2 a zm in
  let Eta := f r1 a zm * g r2 a zm - g r1 a zm * f r2 a zm in
  let Sigma := g r1 a zm * h r2 a zm - h r1 a zm * g r2 a zm in
  sqrt ((Kappa * Rho + 2 * Epsilon * Sigma
         - x * 2 * sqrt (Sigma * (Sigma * pow Epsilon 2 + Rho * Epsilon * Kappa
                                  - Eta * pow Kappa 2) / pow x 2))
        / (pow Rho 2 + 4 * Eta * Sigma)).

Definition KerrGeoAngularMomentum (a p e x En : float) : float :=
  let r1 := p / (1 - e) in
  let zm := sqrt (1 - pow x 2) in
  ((- En) * g r1 a zm
   + x * sqrt (((- (d r1 a zm)) * h r1 a zm
                + pow En 2 * (pow (g r1 a zm) 2 + f r1 a zm * h r1 a zm))
               / pow x 2))
  / h r1 a zm.

Definition KerrGeoCarterConstant (a p e x En L : float) : float :=
  let zm := sqrt (1 - pow x 2) in
  pow zm 2 * (pow a 2 * (1 - pow En 2) + pow L 2 / (1 - pow zm 2)).

(** The three output pointers become the returned triple [(E, L, Q)]. *)
Definition KerrGeoConstantsOfMotion (a p e x : float)
  : float * float * float :=
  let E_out := KerrGeoEnergy a p e x in
  let L_out := KerrGeoAngularMomentum a p e x E_out in
  let Q_out := KerrGeoCarterConstant a p e x E_out L_out in
  (E_out, L_out, Q_out).

(** ** Radial roots and Mino frequencies *)

(** The four output pointers become the returned tuple [(r1, r2, r3, r4)]. *)
Definition KerrGeoRadialRoots (a p e x En Q : float)
  : float * float * float * float :=
  let M := 1 in
  let r1 := p / (1 - e) in
  let r2 := p / (1 + e) in
  let AplusB := (2 * M) / (1 - pow En 2) - (r1 + r2) in
  let AB := (pow a 2 * Q) / ((1 - pow En 2) * r1 * r2) in
  let r3 := (AplusB + sqrt (pow AplusB 2 - 4 * AB)) / 2 in
  let r4 := AB / r3 in
  (r1, r2, r3, r4).

(** Returns [(CapitalGamma, CapitalUpsilonPhi, CapitalUpsilonTheta,
    CapitalUpsilonr)].  Each elliptic integral is a function of its
    arguments that either returns or throws, so a repeated call is bound
    once, at its first occurrence in the text. *)
Definition KerrGeoMinoFrequencies (a p e x : float)
  : Comp (float * float * float * float) :=
  let M := 1 in
  let En := KerrGeoEnergy a p e x in
  let L := KerrGeoAngularMomentum a p e x En in
  let Q := KerrGeoCarterConstant a p e x En L in
  let '(r1, r2, r3, r4) := KerrGeoRadialRoots a p e x En Q in
  let Epsilon0 := pow a 2 * (1 - pow En 2) / pow L 2 in
  let zm := 1 - pow x 2 in
  let a2zp :=
    (pow L 2 + pow a 2 * ((-1) + pow En 2) * ((-1) + zm))
    / (((-1) + pow En 2) * ((-1) + zm)) in
  let Epsilon0zp :=
    (- ((pow L 2 + pow a 2 * ((-1) + pow En 2) * ((-1) + zm))
        / (pow L 2 * ((-1) + zm)))) in
  let zmOverZp :=
    zm / ((pow L 2 + pow a 2 * ((-1) + pow En 2) * ((-1) + zm))
          / (pow a 2 * ((-1) + pow En 2) * ((-1) + zm))) in
  let kr := sqrt ((r1 - r2) / (r1 - r3) * (r3 - r4) / (r2 - r4)) in
  let kTheta := sqrt zmOverZp in
  K_kr <- EllipticK (pow kr 2) ;;
  let CapitalUpsilonr :=
    (M_PI * sqrt ((1 - pow En 2) * (r1 - r3) * (r2 - r4))) / (2 * K_kr) in
  K_kTheta <- EllipticK (pow kTheta 2) ;;
  let CapitalUpsilonTheta :=
    (M_PI * L * sqrt Epsilon0zp) / (2 * K_kTheta) in
  let rp := M + sqrt (pow M 2 - pow a 2) in
  let rm := M - sqrt (pow M 2 - pow a 2) in
  let hr := (r1 - r2) / (r1 - r3) in
  let hp := ((r1 - r2) * (r3 - rp)) / ((r1 - r3) * (r2 - rp)) in
  let hm := ((r1 - r2) * (r3 - rm)) / ((r1 - r3) * (r2 - rm)) in
  Pi_zm_kTheta <- EllipticPi zm (pow kTheta 2) ;;
  Pi_hp_kr <- EllipticPi hp (pow kr 2) ;;
  Pi_hm_kr <- EllipticPi hm (pow kr 2) ;;
  let CapitalUpsilonPhi :=
    (2 * CapitalUpsilonTheta) / (M_PI * sqrt Epsilon0zp) * Pi_zm_kTheta
    + (2 * a * CapitalUpsilonr)
      / (M_PI * (rp - rm) * sqrt ((1 - pow En 2) * (r1 - r3) * (r2 - r4)))
      * ((2 * M * En * rp - a * L) / (r3 - rp)
         * (K_kr - (r2 - r3) / (r2 - rp) * Pi_hp_kr)
         - (2 * M * En * rm - a * L) / (r3 - rm)
           * (K_kr - (r2 - r3) / (r2 - rm) * Pi_hm_kr)) in
  E_kTheta <- EllipticE (pow kTheta 2) ;;
  Pi_hr_kr <- EllipticPi hr (pow kr 2) ;;
  E_kr <- EllipticE (pow kr 2) ;;
  let CapitalGamma :=
    4 * pow M 2 * En
    + (2 * a2zp * En * CapitalUpsilonTheta) / (M_PI * L * sqrt Epsilon0zp)
      * (K_kTheta - E_kTheta)
    + (2 * CapitalUpsilonr)
      / (M_PI * sqrt ((1 - pow En 2) * (r1 - r3) * (r2 - r4)))
      * (En / 2
         * ((r3 * (r1 + r2 + r3) - r1 * r2) * K_kr
            + (r2 - r3) * (r1 + r2 + r3 + r4) * Pi_hr_kr
            + (r1 - r3) * (r2 - r4) * E_kr)
         + 2 * M * En * (r3 * K_kr + (r2 - r3) * Pi_hr_kr)
         + (2 * M) / (rp - rm)
           * (((4 * pow M 2 * En - a * L) * rp - 2 * M * pow a 2 * En)
              / (r3 - rp) * (K_kr - (r2 - r3) / (r2 - rp) * Pi_hp_kr)
              - ((4 * pow M 2 * En - a * L) * rm - 2 * M * pow a 2 * En)
                / (r3 - rm) * (K_kr - (r2 - r3) / (r2 - rm) * Pi_hm_kr))) in
  ret (CapitalGamma, CapitalUpsilonPhi, CapitalUpsilonTheta, CapitalUpsilonr).

(** Returns [(CapitalGamma, CapitalUpsilonPhi, CapitalUpsilonTheta,
    CapitalUpsilonr)]; [e] and [x] are not used. *)
Definition KerrEqGeoMinoFrequencies (a p e x : float)
  : float * float * float * float :=
  let CapitalUpsilonr :=
    Sqrt ((p * ((-2) * Power a 2 + 6 * a * Sqrt p + ((-5) + p) * p
                + (Power (a - Sqrt p) 2
                   * (Power a 2 - 4 * a * Sqrt p - ((-4) + p) * p))
                  / abs (Power a 2 - 4 * a * Sqrt p - ((-4) + p) * p)))
          / (2 * a * Sqrt p + ((-3) + p) * p)) in
  let CapitalUpsilonTheta :=
    abs ((Power p 0.25 * Sqrt (3 * Power a 2 - 4 * a * Sqrt p + Power p 2))
         / Sqrt (2 * a + ((-3) + p) * Sqrt p)) in
  let CapitalUpsilonPhi :=
    Power p 1.25 / Sqrt (2 * a + ((-3) + p) * Sqrt p) in
  let CapitalGamma :=
    (Power p 1.25 * (a + Power p 1.5)) / Sqrt (2 * a + ((-3) + p) * Sqrt p) in
  (CapitalGamma, CapitalUpsilonPhi, CapitalUpsilonTheta, CapitalUpsilonr).

(** ** Coordinate frequencies *)

(** Returns [(OmegaPhi, OmegaTheta, OmegaR)]. *)
Definition KerrGeoCoordinateFrequencies (a p e x : float)
  : Comp (float * float * float) :=
  '(CapitalGamma, CapitalUpsilonPhi, CapitalUpsilonTheta, CapitalUpsilonR)
    <- (if abs x =? 1
        then ret (KerrEqGeoMinoFrequencies a p e x)
        else KerrGeoMinoFrequencies a p e x) ;;
  if neb CapitalUpsilonPhi CapitalUpsilonPhi
     || neb CapitalGamma CapitalGamma
     || neb CapitalUpsilonR CapitalUpsilonR
  then
    print "(a, p, e, x) = (%f , %f , %f , %f) \n" [a; p; e; x] ;;;
    throw (invalid_argument "Nan in fundamental frequencies" [])
  else
    ret (CapitalUpsilonPhi / CapitalGamma,
         CapitalUpsilonTheta / CapitalGamma,
         CapitalUpsilonR / CapitalGamma).

(** Returns [(OmegaPhi, OmegaR)]. *)
Definition SchwarzschildGeoCoordinateFrequencies (p e : float)
  : Comp (float * float) :=
  EllipE <- EllipticE (4 * e / (p - 6 + 2 * e)) ;;
  EllipK <- EllipticK (4 * e / (p - 6 + 2 * e)) ;;
  EllipPi1 <- EllipticPi (16 * e / (12 + 8 * e - 4 * e * e - 8 * p + p * p))
                         (4 * e / (p - 6 + 2 * e)) ;;
  EllipPi2 <- EllipticPi (2 * e * (p - 4) / ((1 + e) * (p - 6 + 2 * e)))
                         (4 * e / (p - 6 + 2 * e)) ;;
  let OmegaPhi :=
    (2 * Power p 1.5)
    / (Sqrt ((-4) * Power e 2 + Power ((-2) + p) 2)
       * (8 + (((-2) * EllipPi2 * (6 + 2 * e - p) * (3 + Power e 2 - p)
                * Power p 2) / (((-1) + e) * Power (1 + e) 2)
               - (EllipE * ((-4) + p) * Power p 2 * ((-6) + 2 * e + p))
                 / ((-1) + Power e 2)
               + (EllipK * Power p 2
                  * (28 + 4 * Power e 2 - 12 * p + Power p 2))
                 / ((-1) + Power e 2)
               + (4 * ((-4) + p) * p
                  * (2 * (1 + e) * EllipK + EllipPi2 * ((-6) - 2 * e + p)))
                 / (1 + e)
               + 2 * Power ((-4) + p) 2
                 * (EllipK * ((-4) + p)
                    + (EllipPi1 * p * ((-6) - 2 * e + p)) / (2 + 2 * e - p)))
              / (EllipK * Power ((-4) + p) 2))) in
  let OmegaR :=
    (p * Sqrt (((-6) + 2 * e + p) / ((-4) * Power e 2 + Power ((-2) + p) 2))
     * Pi)
    / (8 * EllipK
       + (((-2) * EllipPi2 * (6 + 2 * e - p) * (3 + Power e 2 - p)
           * Power p 2) / (((-1) + e) * Power (1 + e) 2)
          - (EllipE * ((-4) + p) * Power p 2 * ((-6) + 2 * e + p))
            / ((-1) + Power e 2)
          + (EllipK * Power p 2 * (28 + 4 * Power e 2 - 12 * p + Power p 2))
            / ((-1) + Power e 2)
          + (4 * ((-4) + p) * p
             * (2 * (1 + e) * EllipK + EllipPi2 * ((-6) - 2 * e + p)))
            / (1 + e)
          + 2 * Power ((-4) + p) 2
            * (EllipK * ((-4) + p)
               + (EllipPi1 * p * ((-6) - 2 * e + p)) / (2 + 2 * e - p)))
         / Power ((-4) + p) 2) in
  ret (OmegaPhi, OmegaR).

(** The three output arrays of the vectorized form. *)
Record freq_arrays : Type := {
  OmegaPhi_ : list float;
  OmegaTheta_ : list float;
  OmegaR_ : list float;
}.

(** One iteration of the loop of [KerrGeoCoordinateFrequenciesVectorized]. *)
Definition KerrGeoCoordinateFrequenciesVectorized_body
    (a p e x : list float) (i : nat) (out : freq_arrays) : Comp freq_arrays :=
  if neb (a !!! i) 0 then
    '(OmegaPhi, OmegaTheta, OmegaR)
      <- KerrGeoCoordinateFrequencies (a !!! i) (p !!! i) (e !!! i) (x !!! i) ;;
    ret {| OmegaPhi_ := <[i := OmegaPhi]> (OmegaPhi_ out);
           OmegaTheta_ := <[i := OmegaTheta]> (OmegaTheta_ out);
           OmegaR_ := <[i := OmegaR]> (OmegaR_ out) |}
  else
    '(OmegaPhi, OmegaR)
      <- SchwarzschildGeoCoordinateFrequencies (p !!! i) (e !!! i) ;;
    let OmegaPhi_' := <[i := OmegaPhi]> (OmegaPhi_ out) in
    ret {| OmegaPhi_ := OmegaPhi_';
           OmegaTheta_ := <[i := OmegaPhi_' !!! i]> (OmegaTheta_ out);
           OmegaR_ := <[i := OmegaR]> (OmegaR_ out) |}.

(** The iterations run in index order; the output arrays are distinct. *)
Definition KerrGeoCoordinateFrequenciesVectorized
    (out : freq_arrays) (a p e x : list float) (length : Z)
  : Comp freq_arrays :=
  for_loop (Z.to_nat length) 0%nat
           (KerrGeoCoordinateFrequenciesVectorized_body a p e x) out.

(** ** Separatrix polynomials *)

Definition separatrix_polynomial_full (p : float) (params : params_holder.t)
  : float :=
  let a := params_holder.a params in
  let e := params_holder.e params in
  let x := params_holder.x params in
  (-4) * (3 + e) * Power p 11 + Power p 12
  + Power a 12 * Power ((-1) + e) 4 * Power (1 + e) 8 * Power ((-1) + x) 4
    * Power (1 + x) 4
  - 4 * Power a 10 * ((-3) + e) * Power ((-1) + e) 3 * Power (1 + e) 7 * p
    * Power ((-1) + Power x 2) 4
  - 4 * Power a 8 * ((-1) + e) * Power (1 + e) 5 * Power p 3
    * Power ((-1) + x) 3 * Power (1 + x) 3
    * (7 - 7 * Power x 2 - Power e 2 * ((-13) + Power x 2)
       + Power e 3 * ((-5) + Power x 2) + 7 * e * ((-1) + Power x 2))
  + 8 * Power a 6 * ((-1) + e) * Power (1 + e) 3 * Power p 5
    * Power ((-1) + Power x 2) 2
    * (3 + e + 12 * Power x 2 + 4 * e * Power x 2
       + Power e 3 * ((-5) + 2 * Power x 2) + Power e 2 * (1 + 2 * Power x 2))
  - 8 * Power a 4 * Power (1 + e) 2 * Power p 7 * ((-1) + x) * (1 + x)
    * ((-3) + e + 15 * Power x 2 - 5 * e * Power x 2
       + Power e 3 * ((-5) + 3 * Power x 2)
       + Power e 2 * ((-1) + 3 * Power x 2))
  + 4 * Power a 2 * Power p 9
    * ((-7) - 7 * e + Power e 3 * ((-5) + 4 * Power x 2)
       + Power e 2 * ((-13) + 12 * Power x 2))
  + 2 * Power a 8 * Power ((-1) + e) 2 * Power (1 + e) 6 * Power p 2
    * Power ((-1) + Power x 2) 3
    * (2 * Power ((-3) + e) 2 * ((-1) + Power x 2)
       + Power a 2 * (Power e 2 * ((-3) + Power x 2) - 3 * (1 + Power x 2)
                      + 2 * e * (1 + Power x 2)))
  - 2 * Power p 10
    * ((-2) * Power (3 + e) 2
       + Power a 2 * ((-3) + 6 * Power x 2 + Power e 2 * ((-3) + 2 * Power x 2)
                      + e * ((-2) + 4 * Power x 2)))
  + Power a 6 * Power (1 + e) 4 * Power p 4 * Power ((-1) + Power x 2) 2
    * ((-16) * Power ((-1) + e) 2 * ((-3) - 2 * e + Power e 2)
       * ((-1) + Power x 2)
       + Power a 2 * (15 + 6 * Power x 2 + 9 * Power x 4
                      + Power e 2 * (26 + 20 * Power x 2 - 2 * Power x 4)
                      + Power e 4 * (15 - 10 * Power x 2 + Power x 4)
                      + 4 * Power e 3 * ((-5) - 2 * Power x 2 + Power x 4)
                      - 4 * e * (5 + 2 * Power x 2 + 3 * Power x 4)))
  - 4 * Power a 4 * Power (1 + e) 2 * Power p 6 * ((-1) + x) * (1 + x)
    * ((-2) * (11 - 14 * Power e 2 + 3 * Power e 4) * ((-1) + Power x 2)
       + Power a 2 * (5 - 5 * Power x 2 - 9 * Power x 4
                      + 4 * Power e 3 * Power x 2 * ((-2) + Power x 2)
                      + Power e 4 * (5 - 5 * Power x 2 + Power x 4)
                      + Power e 2 * (6 - 6 * Power x 2 + 4 * Power x 4)))
  + Power a 2 * Power p 8
    * ((-16) * Power (1 + e) 2 * ((-3) + 2 * e + Power e 2)
       * ((-1) + Power x 2)
       + Power a 2 * (15 - 36 * Power x 2 + 30 * Power x 4
                      + Power e 4 * (15 - 20 * Power x 2 + 6 * Power x 4)
                      + 4 * Power e 3 * (5 - 12 * Power x 2 + 6 * Power x 4)
                      + 4 * e * (5 - 12 * Power x 2 + 10 * Power x 4)
                      + Power e 2 * (26 - 72 * Power x 2 + 44 * Power x 4))).

Definition separatrix_polynomial_polar (p : float) (params : params_holder.t)
  : float :=
  let a := params_holder.a params in
  let e := params_holder.e params in
  let x := params_holder.x params in
  Power a 6 * Power ((-1) + e) 2 * Power (1 + e) 4
  + Power p 5 * ((-6) - 2 * e + p)
  + Power a 2 * Power p 3
    * ((-4) * ((-1) + e) * Power (1 + e) 2 + (3 + e * (2 + 3 * e)) * p)
  - Power a 4 * Power (1 + e) 2 * p
    * (6 + 2 * Power e 3 + 2 * e * ((-1) + p) - 3 * p
       - 3 * Power e 2 * (2 + p)).

Definition separatrix_polynomial_equat (p : float) (params : params_holder.t)
  : float :=
  let a := params_holder.a params in
  let e := params_holder.e params in
  let x := params_holder.x params in
  Power a 4 * Power ((-3) - 2 * e + Power e 2) 2
  + Power p 2 * Power ((-6) - 2 * e + p) 2
  - 2 * Power a 2 * (1 + e) * p * (14 + 2 * Power e 2 + 3 * p - e * p).

(** ** The bracketed root solver *)

Definition max_iter : Z := 1000.
Definition epsrel : float := 0.001.

(** The [do ... while (status == GSL_CONTINUE && iter < max_iter)] loop of
    [solver]; the result is [(status, iter, r, x_lo, x_hi)] when it ends.
    [left] bounds the iterations still allowed; the loop starts with
    [max_iter] of them and never uses them up before [iter] reaches
    [max_iter]. *)
Fixpoint solver_loop (left : nat) (s : gsl_root_fsolver) (iter : Z)
  : Z * Z * float * float * float :=
  let iter := (iter + 1)%Z in
  let '(status, s) := gsl_root_fsolver_iterate s in
  let r := gsl_root_fsolver_root s in
  let x_lo := gsl_root_fsolver_x_lower s in
  let x_hi := gsl_root_fsolver_x_upper s in
  let status := gsl_root_test_interval x_lo x_hi 0 epsrel in
  match left with
  | S left' =>
      if (status =? GSL_CONTINUE)%Z && (iter <? max_iter)%Z
      then solver_loop left' s iter
      else (status, iter, r, x_lo, x_hi)
  | O => (status, iter, r, x_lo, x_hi)
  end.

(** [solver], with the [get_separatrix] its warning calls as a parameter.
    The status [gsl_root_fsolver_set] returns is not read. *)
Definition solver_with (get_separatrix : float -> float -> float -> Comp float)
    (params : params_holder.t) (func : float -> params_holder.t -> float)
    (x_lo x_hi : float) : Comp float :=
  let iter := 0%Z in
  let r := 0 in
  let '(_, s) := gsl_root_fsolver_set (fun x => func x params) x_lo x_hi in
  let '(status, iter, r, x_lo, x_hi) :=
    solver_loop (Z.to_nat max_iter) s iter in
  (if negb (status =? GSL_SUCCESS)%Z then
     if (iter =? max_iter)%Z then
       print "WARNING: Maximum iteration reached in Utility.cc in Brent root solver.\n" [] ;;;
       print "Result=%f, x_low=%f, x_high=%f \n" [r; x_lo; x_hi] ;;;
       sep <- get_separatrix (params_holder.a params)
                             (params_holder.e params) r ;;
       print "a, p, e, Y, sep = %f %f %f %f %f\n"
             [params_holder.a params; params_holder.p params;
              params_holder.e params; params_holder.Y params; sep]
     else
       throw (invalid_argument "In Utility.cc Brent root solver failed" [])
   else ret tt) ;;;
  ret r.

(** ** The separatrix *)

(** [fuel] bounds the depth of the calls [get_separatrix] -> [solver] ->
    (warning) [get_separatrix]. *)
Fixpoint get_separatrix (fuel : nat) (a e x : float) : Comp float :=
  match fuel with
  | O => out_of_fuel
  | S fuel' =>
    if a =? 0 then
      let p_sep := 6 + 2 * e in
      ret p_sep
    else if (e =? 0) && (abs x =? 1) then
      let z1 :=
        1 + pow (1 - pow a 2) (1 / 3)
            * (pow (1 + a) (1 / 3) + pow (1 - a) (1 / 3)) in
      let z2 := sqrt (3 * pow a 2 + pow z1 2) in
      let sign := if gtb x 0 then -1 else 1 in
      let p_sep := 3 + z2 + sign * sqrt ((3 - z1) * (3 + z1 + 2 * z2)) in
      ret p_sep
    else
      let solver := solver_with (get_separatrix fuel') in
      let params := params_holder.mk a 0 e x 0 in
      let x_lo := 1 + sqrt 3 + sqrt (3 + 2 * sqrt 3) in
      let x_hi := 8 in
      polar_p_sep <- solver params separatrix_polynomial_polar x_lo x_hi ;;
      if x =? 0 then ret polar_p_sep else
      '(x_lo, x_hi) <-
        (if gtb x 0 then
           let x_lo := 1 + e in
           let x_hi := 6 + 2 * e in
           equat_p_sep
             <- solver params separatrix_polynomial_equat x_lo x_hi ;;
           ret (equat_p_sep, polar_p_sep)
         else
           ret (polar_p_sep, 12)) ;;
      p_sep <- solver params separatrix_polynomial_full x_lo x_hi ;;
      ret p_sep
  end.

Definition solver (fuel : nat) :=
  solver_with (get_separatrix fuel).

(** ** Inclination mapping *)

Definition Y_to_xI_eq (x : float) (params : params_holder.t) : float :=
  let a := params_holder.a params in
  let p := params_holder.p params in
  let e := params_holder.e params in
  let Y := params_holder.Y params in
  let '(E, L, Q) := KerrGeoConstantsOfMotion a p e x in
  let Y_ := L / sqrt (pow L 2 + Q) in
  Y - Y_.

Definition YLIM : float := 0.998.

Definition Y_to_xI (fuel : nat) (a p e Y : float) : Comp float :=
  if gtb (abs Y) YLIM then ret Y else
  let params := params_holder.mk a p e 0 Y in
  let x_lo := Y - 0.15 in
  let x_hi := Y + 0.15 in
  let x_lo := if gtb x_lo (- YLIM) then x_lo else - YLIM in
  let x_hi := if x_hi <? YLIM then x_hi else YLIM in
  x <- solver fuel params Y_to_xI_eq x_lo x_hi ;;
  ret x.

End Utility.

(** * The derivative functions of [ode_base_example.cc] *)

(** What the ODE layer uses and the sources do not define:
    [KerrGeoEquatorialCoordinateFrequencies] (declared by [Utility.hh]) and
    the interpolant classes with their [eval]. *)
Class OdeEnv : Type := {
  KerrGeoEquatorialCoordinateFrequencies :
    float -> float -> float -> float -> Comp (float * float * float);
  Interpolant : Type;
  Interpolant_eval : Interpolant -> float -> float -> Comp float;
  TensorInterpolant : Type;
  TensorInterpolant_eval :
    TensorInterpolant -> float -> float -> float -> Comp float;
}.

(** [isnan] of [cmath]. *)
Definition isnan (x : float) : bool := neb x x.

(** The six doubles a derivative function writes through its pointers.  A
    call receives their contents before the call and returns them after. *)
Record deriv_out : Type := {
  pdot : float;
  edot : float;
  xdot : float;
  Omega_phi : float;
  Omega_theta : float;
  Omega_r : float;
}.

Definition set_pdot (v : float) (o : deriv_out) : deriv_out :=
  {| pdot := v; edot := edot o; xdot := xdot o; Omega_phi := Omega_phi o;
     Omega_theta := Omega_theta o; Omega_r := Omega_r o |}.
Definition set_edot (v : float) (o : deriv_out) : deriv_out :=
  {| pdot := pdot o; edot := v; xdot := xdot o; Omega_phi := Omega_phi o;
     Omega_theta := Omega_theta o; Omega_r := Omega_r o |}.
Definition set_xdot (v : float) (o : deriv_out) : deriv_out :=
  {| pdot := pdot o; edot := edot o; xdot := v; Omega_phi := Omega_phi o;
     Omega_theta := Omega_theta o; Omega_r := Omega_r o |}.
Definition set_Omega (phi theta r : float) (o : deriv_out) : deriv_out :=
  {| pdot := pdot o; edot := edot o; xdot := xdot o; Omega_phi := phi;
     Omega_theta := theta; Omega_r := r |}.

Module SchwarzEccFlux.
Section SchwarzEccFlux.
Context {env : Env} {ode : OdeEnv}.

(** [struct interp_params]. *)
Record interp_params : Type := { Edot : Interpolant; Ldot : Interpolant }.

Definition deriv_func (interps : interp_params) (out : deriv_out)
    (epsilon a p e x : float) : Comp deriv_out :=
  if gtb (6 + 2 * e) p then
    let out := set_pdot 0 out in
    let out := set_edot 0 out in
    let out := set_xdot 0 out in
    ret out
  else
    '(Omega_phi, Omega_r) <- SchwarzschildGeoCoordinateFrequencies p e ;;
    let out := set_Omega Omega_phi (Omega_theta out) Omega_r out in
    let out := set_Omega Omega_phi Omega_phi Omega_r out in
    let y1 := log (p - 2 * e - 2.1) in
    let yPN := pow Omega_phi (2 / 3) in
    let EdotPN :=
      (96 + 292 * Power e 2 + 37 * Power e 4)
      / (15 * Power (1 - Power e 2) 3.5) * pow yPN 5 in
    let LdotPN :=
      (4 * (8 + 7 * Power e 2)) / (5 * Power ((-1) + Power e 2) 2)
      * pow yPN (7 / 2) in
    Edot_y1_e <- Interpolant_eval (Edot interps) y1 e ;;
    let Edot := (- epsilon) * (Edot_y1_e * pow yPN 6 + EdotPN) in
    Ldot_y1_e <- Interpolant_eval (Ldot interps) y1 e ;;
    let Ldot := (- epsilon) * (Ldot_y1_e * pow yPN (9 / 2) + LdotPN) in
    let out :=
      set_pdot
        (((-2) * (Edot * Sqrt ((4 * Power e 2 - Power ((-2) + p) 2)
                               / (3 + Power e 2 - p))
                  * (3 + Power e 2 - p) * Power p 1.5
                  + Ldot * Power ((-4) + p) 2 * Sqrt ((-3) - Power e 2 + p)))
         / (4 * Power e 2 - Power ((-6) + p) 2)) out in
    let out :=
      if gtb e 0 then
        set_edot
          (- ((Edot * Sqrt ((4 * Power e 2 - Power ((-2) + p) 2)
                            / (3 + Power e 2 - p))
               * Power p 1.5
               * (18 + 2 * Power e 4 - 3 * Power e 2 * ((-4) + p) - 9 * p
                  + Power p 2)
               + ((-1) + Power e 2) * Ldot * Sqrt ((-3) - Power e 2 + p)
                 * (12 + 4 * Power e 2 - 8 * p + Power p 2))
              / (e * (4 * Power e 2 - Power ((-6) + p) 2) * p))) out
      else set_edot 0 out in
    let out := set_xdot 0 out in
    ret out.

End SchwarzEccFlux.
End SchwarzEccFlux.

Module KerrEccentricEquatorial.
Section KerrEccentricEquatorial.
Context {env : Env} {ode : OdeEnv}.

(** The interpolants the constructor builds. *)
Record interpolants : Type := {
  edot_interp : TensorInterpolant;
  pdot_interp : TensorInterpolant;
  Edot_interp : TensorInterpolant;
  Ldot_interp : TensorInterpolant;
}.

(** [fuel] is the fuel of the two calls of [get_separatrix]. *)
Definition deriv_func (fuel : nat) (this : interpolants) (out : deriv_out)
    (epsilon a p e x : float) : Comp deriv_out :=
  p_sep <- get_separatrix fuel a e x ;;
  if (e <? 0) || (p <? p_sep) then
    let out := set_pdot 0 out in
    let out := set_edot 0 out in
    let out := set_xdot 0 out in
    ret out
  else
    '(Omega_phi, Omega_theta, Omega_r)
      <- KerrGeoEquatorialCoordinateFrequencies a p e x ;;
    let out := set_Omega Omega_phi Omega_theta Omega_r out in
    let Omega_phi_sep_circ := 1 / (a + pow (p_sep / (1 + e)) 1.5) in
    let r := pow (Omega_phi / Omega_phi_sep_circ) (2 / 3) * (1 + e) in
    (if isnan r then
       print " a =%f\tp=%f\te=%f\tx=%f\t%f plso =%f\n" [a; p; e; x; r; p_sep] ;;;
       print "omegaphi circ %f omegaphi %f omegar %f\n"
             [Omega_phi_sep_circ; Omega_phi; Omega_r] ;;;
       throw std_exception
     else ret tt) ;;;
    risco <- get_separatrix fuel a 0 x ;;
    let u := log ((p - p_sep + 4 - 0.05) / 4) in
    let w := sqrt e in
    pdot_a_u_w <- TensorInterpolant_eval (pdot_interp this) a u w ;;
    let pdot_out :=
      pdot_a_u_w
      * ((8 * pow (1 - pow e 2) 1.5 * (8 + 7 * pow e 2))
         / (5 * p * (pow (p - risco) 2 - pow ((- risco) + p_sep) 2))) in
    edot_a_u_w <- TensorInterpolant_eval (edot_interp this) a u w ;;
    let edot_out :=
      edot_a_u_w
      * ((pow (1 - pow e 2) 1.5 * (304 + 121 * pow e 2))
         / (15 * pow p 2
            * (pow (p - risco) 2 - pow ((- risco) + p_sep) 2))) in
    let out :=
      if gtb e 1e-6 then
        let out := set_pdot (epsilon * pdot_out) out in
        set_edot (epsilon * edot_out) out
      else
        let out := set_edot 0 out in
        set_pdot (epsilon * pdot_out) out in
    let out := set_xdot 0 out in
    ret out.

End KerrEccentricEquatorial.
End KerrEccentricEquatorial.

(** * An environment to run examples

    [Example.env] instantiates [Env] so that calls can be evaluated at
    concrete inputs:
    - [pow] on the exponents the examples use (integers up to 12 by repeated
      multiplication, and 0.25, 0.5, 1.25, 1.5 through [sqrt]); it is exact
      wherever the true power is a binary64 number and the products are;
    - the complete elliptic integrals at modulus 0 (and characteristic 0),
      where all three are pi/2, and at the arguments of the Schwarzschild
      orbit [p = 16], [e = 0.5], to 17 digits; any other argument is
      reported as an error, as GSL does for a modulus with [k*k >= 1];
    - a bisection solver in place of [gsl_root_fsolver_brent], with the
      interval test of the GSL manual.
    The theorems stated for every [Env] do not depend on it. *)
Module Example.

Definition powi (x : float) (n : nat) : float :=
  Nat.iter n (fun y => y * x) 1.

Definition libm_pow (x y : float) : float :=
  if y =? 0.25 then sqrt (sqrt x)
  else if y =? 0.5 then sqrt x
  else if y =? 1.25 then x * sqrt (sqrt x)
  else if y =? 1.5 then x * sqrt x
  else
    match
      List.find (fun n => PrimFloat.of_uint63 (Uint63.of_Z (Z.of_nat n)) =? y)
                (seq 0 13)
    with
    | Some n => powi x n
    | None => nan
    end.

Definition GSL_EDOM : Z := 1.
Definition GSL_EINVAL : Z := 4.

(** [K], [E] and [Pi] in GSL's conventions: modulus [k], characteristic
    [n] with the sign of [gsl_sf_ellint_Pcomp].  For [p = 16], [e = 0.5]
    the squared modulus is [4e/(p - 6 + 2e) = 2/11]. *)
Definition ellint_Kcomp (k : float) : Z * float :=
  if k =? 0 then (GSL_SUCCESS, M_PI / 2)
  else if k =? sqrt (2 / 11) then (GSL_SUCCESS, 1.6505710932357647)
  else (GSL_EDOM, nan).

Definition ellint_Ecomp (k : float) : Z * float :=
  if k =? 0 then (GSL_SUCCESS, M_PI / 2)
  else if k =? sqrt (2 / 11) then (GSL_SUCCESS, 1.4967572696730818)
  else (GSL_EDOM, nan).

Definition ellint_Pcomp (k n : float) : Z * float :=
  if (k =? 0) && (n =? 0) then (GSL_SUCCESS, M_PI / 2)
  else if (k =? sqrt (2 / 11)) && (n =? - (8 / 143))
  then (GSL_SUCCESS, 1.6999995893898168)
  else if (k =? sqrt (2 / 11)) && (n =? - (12 / 16.5))
  then (GSL_SUCCESS, 3.2109372686482316)
  else (GSL_EDOM, nan).

(** The function and the current bracket [(x_lower, x_upper)]. *)
Definition fsolver : Type := (float -> float) * float * float.

Definition fsolver_set (F : float -> float) (x_lower x_upper : float)
  : Z * fsolver :=
  let f_lower := F x_lower in
  let f_upper := F x_upper in
  if ((f_lower <? 0) && (f_upper <? 0)) || ((0 <? f_lower) && (0 <? f_upper))
  then (GSL_EINVAL, (F, x_lower, x_upper))
  else (GSL_SUCCESS, (F, x_lower, x_upper)).

Definition fsolver_iterate (s : fsolver) : Z * fsolver :=
  let '(F, x_left, x_right) := s in
  let f_lower := F x_left in
  let f_upper := F x_right in
  let x_bisect := (x_left + x_right) / 2 in
  let f_bisect := F x_bisect in
  if f_lower =? 0 then (GSL_SUCCESS, (F, x_left, x_left))
  else if f_upper =? 0 then (GSL_SUCCESS, (F, x_right, x_right))
  else if f_bisect =? 0 then (GSL_SUCCESS, (F, x_bisect, x_bisect))
  else if ((0 <? f_lower) && (f_bisect <? 0))
          || ((f_lower <? 0) && (0 <? f_bisect))
  then (GSL_SUCCESS, (F, x_left, x_bisect))
  else (GSL_SUCCESS, (F, x_bisect, x_right)).

Definition fsolver_root (s : fsolver) : float :=
  let '(_, x_left, x_right) := s in (x_left + x_right) / 2.
Definition fsolver_x_lower (s : fsolver) : float :=
  let '(_, x_left, _) := s in x_left.
Definition fsolver_x_upper (s : fsolver) : float :=
  let '(_, _, x_right) := s in x_right.

Definition test_interval (x_lower x_upper epsabs epsrel : float) : Z :=
  let abs_lower := abs x_lower in
  let abs_upper := abs x_upper in
  if gtb x_lower x_upper then GSL_EINVAL else
  let min_abs :=
    if ((0 <? x_lower) && (0 <? x_upper)) || ((x_lower <? 0) && (x_upper <? 0))
    then (if abs_lower <? abs_upper then abs_lower else abs_upper)
    else 0 in
  let tolerance := epsabs + epsrel * min_abs in
  if abs (x_upper - x_lower) <? tolerance then GSL_SUCCESS else GSL_CONTINUE.

#[export] Instance env : Env := {|
  pow := libm_pow;
  log := fun _ => nan;
  Power := libm_pow;
  Sqrt := sqrt;
  Pi := M_PI;
  gsl_sf_ellint_Kcomp_e := ellint_Kcomp;
  gsl_sf_ellint_Ecomp_e := ellint_Ecomp;
  gsl_sf_ellint_Pcomp_e := ellint_Pcomp;
  gsl_root_fsolver := fsolver;
  gsl_root_fsolver_set := fsolver_set;
  gsl_root_fsolver_iterate := fsolver_iterate;
  gsl_root_fsolver_root := fsolver_root;
  gsl_root_fsolver_x_lower := fsolver_x_lower;
  gsl_root_fsolver_x_upper := fsolver_x_upper;
  gsl_root_test_interval := test_interval;
|}.

(** An ODE environment whose frequency engine reports that it was called. *)
#[export] Instance probe : OdeEnv := {|
  KerrGeoEquatorialCoordinateFrequencies := fun _ _ _ _ =>
    throw (invalid_argument "KerrGeoEquatorialCoordinateFrequencies called" []);
  Interpolant := unit;
  Interpolant_eval := fun _ _ _ => ret 0;
  TensorInterpolant := unit;
  TensorInterpolant_eval := fun _ _ _ _ => ret 0;
|}.

(** Spin 0.5 and spin 0 at [p = 16] on a circular equatorial orbit, and
    output arrays of two cells. *)
Definition spins : list float := [0.5; 0].
Definition ps : list float := [16; 16].
Definition es : list float := [0; 0].
Definition xs : list float := [1; 1].
Definition buffers : freq_arrays :=
  {| OmegaPhi_ := [0; 0]; OmegaTheta_ := [0; 0]; OmegaR_ := [0; 0] |}.

(** What the vectorized form leaves in the output arrays on this input. *)
Definition written : freq_arrays :=
  Eval vm_compute in
    match
      snd (@KerrGeoCoordinateFrequenciesVectorized env buffers
             spins ps es xs 2)
    with
    | Return out => out
    | _ => buffers
    end.

(** One cell per output, for the input [(a, p, e, x) = (0, 4, 0, 1)]. *)
Definition cell : freq_arrays :=
  {| OmegaPhi_ := [0]; OmegaTheta_ := [0]; OmegaR_ := [0] |}.
Definition cell_written : freq_arrays :=
  {| OmegaPhi_ := [nan]; OmegaTheta_ := [nan]; OmegaR_ := [nan] |}.

(** The six doubles of a derivative function before a call. *)
Definition before : deriv_out :=
  {| pdot := 1; edot := 2; xdot := 3;
     Omega_phi := 4; Omega_theta := 5; Omega_r := 6 |}.

(** The largest double below 1. *)
Definition below_one : float := 0x1.fffffffffffffp-1.

(** [env] with an interval test that never accepts, so that every solve
    uses up its iterations. *)
Definition never_converges : Env := {|
  pow := libm_pow;
  log := fun _ => nan;
  Power := libm_pow;
  Sqrt := sqrt;
  Pi := M_PI;
  gsl_sf_ellint_Kcomp_e := ellint_Kcomp;
  gsl_sf_ellint_Ecomp_e := ellint_Ecomp;
  gsl_sf_ellint_Pcomp_e := ellint_Pcomp;
  gsl_root_fsolver := fsolver;
  gsl_root_fsolver_set := fsolver_set;
  gsl_root_fsolver_iterate := fsolver_iterate;
  gsl_root_fsolver_root := fsolver_root;
  gsl_root_fsolver_x_lower := fsolver_x_lower;
  gsl_root_fsolver_x_upper := fsolver_x_upper;
  gsl_root_test_interval := fun _ _ _ _ => GSL_CONTINUE;
|}.

(** The parameters and the bracket of the polar solve for spin 0.5 and
    eccentricity 0.2, and how its loop ends when no interval is accepted. *)
Definition polar_params : params_holder.t := params_holder.mk 0.5 0 0.2 0.5 0.
Definition polar_lo : float := 1 + sqrt 3 + sqrt (3 + 2 * sqrt 3).
Definition exhausted : Z * Z * float * float * float :=
  Eval vm_compute in
    @solver_loop never_converges (Z.to_nat max_iter)
      (snd (@gsl_root_fsolver_set never_converges
              (fun x => @separatrix_polynomial_polar never_converges
                          x polar_params)
              polar_lo 8))
      0.

End Example.

(** * Definitions that follow the specification *)

(** [max] and [min] of two doubles as C's [fmax] and [fmin] give them: a NaN
    argument is dropped. *)
Definition fmax (x y : float) : float :=
  if is_nan x then y else if is_nan y then x else if x <? y then y else x.
Definition fmin (x y : float) : float :=
  if is_nan x then y else if is_nan y then x else if y <? x then y else x.



Section Specification.
Context {env : Env}.

(** The inclination mapper of the specification: [Y] itself when
    [|Y| > 0.998]; otherwise the root the bracketed solver finds for
    [Y - L/sqrt(L^2 + Q)] over
    [[max(Y - 0.15, -0.998), min(Y + 0.15, 0.998)]]. *)
Definition Y_to_xI_spec (fuel : nat) (a p e Y : float) : Comp float :=
  if gtb (abs Y) 0.998 then ret Y
  else
    solver fuel (params_holder.mk a p e 0 Y)
      (fun x params =>
         let '(E, L, Q) :=
           KerrGeoConstantsOfMotion (params_holder.a params)
             (params_holder.p params) (params_holder.e params) x in
         params_holder.Y params - L / sqrt (pow L 2 + Q))
      (fmax (Y - 0.15) (-0.998)) (fmin (Y + 0.15) 0.998).

End Specification.

(** ** Statements used by the theorems *)

Section Statements.
Context {env : Env}.

(** The Mino frequencies [KerrGeoCoordinateFrequencies] computes first, by
    the equatorial closed form or by the generic path. *)
Definition MinoFrequencies (a p e x : float)
  : Comp (float * float * float * float) :=
  if abs x =? 1
  then ret (KerrEqGeoMinoFrequencies a p e x)
  else KerrGeoMinoFrequencies a p e x.

(** What the vectorized form has written at index [i] of its outputs. *)
Definition written_at (a p e x : list float) (out : freq_arrays) (i : nat)
  : Prop :=
  if neb (a !!! i) 0 then
    exists l,
      KerrGeoCoordinateFrequencies (a !!! i) (p !!! i) (e !!! i) (x !!! i)
      = (l, Return (OmegaPhi_ out !!! i, OmegaTheta_ out !!! i,
                    OmegaR_ out !!! i))
  else
    (exists l,
       SchwarzschildGeoCoordinateFrequencies (p !!! i) (e !!! i)
       = (l, Return (OmegaPhi_ out !!! i, OmegaR_ out !!! i)))
    /\ OmegaTheta_ out !!! i = OmegaPhi_ out !!! i.

(** Batch/scalar equivalence as the specification states it: whatever the
    spin, output index [i] holds what the scalar form returns on input
    [i]. *)
Definition batch_equals_scalar : Prop :=
  forall (out : freq_arrays) (a p e x : list float) (n i : nat) l out',
    length a = n -> length p = n -> length e = n -> length x = n ->
    length (OmegaPhi_ out) = n -> length (OmegaTheta_ out) = n ->
    length (OmegaR_ out) = n ->
    KerrGeoCoordinateFrequenciesVectorized out a p e x (Z.of_nat n)
    = (l, Return out') ->
    (i < n)%nat ->
    exists l',
      KerrGeoCoordinateFrequencies (a !!! i) (p !!! i) (e !!! i) (x !!! i)
      = (l', Return (OmegaPhi_ out' !!! i, OmegaTheta_ out' !!! i,
                     OmegaR_ out' !!! i)).

(** Equal polar and azimuthal frequencies on every circular equatorial
    orbit, as the specification states it. *)
Definition circular_equatorial_theta_eq_phi : Prop :=
  forall (a p x : float) l OmegaPhi OmegaTheta OmegaR,
    (0 <=? a) = true -> (a <=? 1) = true -> (abs x =? 1) = true ->
    KerrGeoCoordinateFrequencies a p 0 x
    = (l, Return (OmegaPhi, OmegaTheta, OmegaR)) ->
    OmegaTheta = OmegaPhi.

(** The three derivatives set to zero, the frequencies left as they were. *)
Definition zeroed (out : deriv_out) : deriv_out :=
  set_xdot 0 (set_edot 0 (set_pdot 0 out)).

(** The derivative functions zero the derivative at or below the
    separatrix, as the specification states it. *)
Definition zero_at_or_below_separatrix {ode : OdeEnv} : Prop :=
  (forall interps out epsilon a p e x,
      (p <=? 6 + 2 * e) = true ->
      SchwarzEccFlux.deriv_func interps out epsilon a p e x
      = ([], Return (zeroed out)))
  /\ (forall fuel this out epsilon a p e x l p_sep,
         get_separatrix fuel a e x = (l, Return p_sep) ->
         (p <=? p_sep) = true ->
         KerrEccentricEquatorial.deriv_func fuel this out epsilon a p e x
         = (l, Return (zeroed out))).

End Statements.

(** [env] with other statuses returned by [gsl_root_fsolver_set] and
    [gsl_root_fsolver_iterate]; the solver states are the same. *)
Definition with_statuses (env : Env)
    (set_status : (float -> float) -> float -> float -> Z)
    (iterate_status : @gsl_root_fsolver env -> Z) : Env := {|
  pow := @pow env;
  log := @log env;
  Power := @Power env;
  Sqrt := @Sqrt env;
  Pi := @Pi env;
  gsl_sf_ellint_Kcomp_e := @gsl_sf_ellint_Kcomp_e env;
  gsl_sf_ellint_Ecomp_e := @gsl_sf_ellint_Ecomp_e env;
  gsl_sf_ellint_Pcomp_e := @gsl_sf_ellint_Pcomp_e env;
  gsl_root_fsolver := @gsl_root_fsolver env;
  gsl_root_fsolver_set := fun F x_lo x_hi =>
    (set_status F x_lo x_hi, snd (@gsl_root_fsolver_set env F x_lo x_hi));
  gsl_root_fsolver_iterate := fun s =>
    (iterate_status s, snd (@gsl_root_fsolver_iterate env s));
  gsl_root_fsolver_root := @gsl_root_fsolver_root env;
  gsl_root_fsolver_x_lower := @gsl_root_fsolver_x_lower env;
  gsl_root_fsolver_x_upper := @gsl_root_fsolver_x_upper env;
  gsl_root_test_interval := @gsl_root_test_interval env;
|}.

(** * More of [Utility.cc] *)

(** [gsl_sf_ellint.h], the incomplete integrals: the status and
    [result.val], at [GSL_PREC_DOUBLE]. *)
Class GslIncomplete : Type := {
  gsl_sf_ellint_F_e : float -> float -> Z * float;
  gsl_sf_ellint_E_e : float -> float -> Z * float;
  gsl_sf_ellint_P_e : float -> float -> float -> Z * float;
}.

(** The three output arrays of [KerrGeoConstantsOfMotionVectorized]. *)
Record constants_arrays : Type := {
  E_out : list float;
  L_out : list float;
  Q_out : list float;
}.

Section MoreUtility.
Context {env : Env} {incomplete : GslIncomplete}.

(** ** The incomplete elliptic integrals *)

Definition EllipticF (phi k : float) : Comp float :=
  let '(status, val) := gsl_sf_ellint_F_e phi (sqrt k) in
  if (status =? GSL_SUCCESS)%Z then ret val
  else
    throw (invalid_argument "EllipticF failed with arguments phi:%e k: %e"
                            [phi; k]).

Definition EllipticEIncomp (phi k : float) : Comp float :=
  let '(status, val) := gsl_sf_ellint_E_e phi (sqrt k) in
  if (status =? GSL_SUCCESS)%Z then ret val
  else
    throw (invalid_argument "EllipticEIncomp failed with argument k: %e" [k]).

Definition EllipticPiIncomp (n phi k : float) : Comp float :=
  let '(status, val) := gsl_sf_ellint_P_e phi (sqrt k) (- n) in
  if (status =? GSL_SUCCESS)%Z then ret val
  else
    throw (invalid_argument "EllipticPiIncomp failed with argument k: %e" [k]).

(** ** The vectorized forms *)

(** One iteration of the loop of [KerrGeoConstantsOfMotionVectorized]. *)
Definition KerrGeoConstantsOfMotionVectorized_body
    (a p e x : list float) (i : nat) (out : constants_arrays)
  : Comp constants_arrays :=
  let '(E, L, Q) :=
    KerrGeoConstantsOfMotion (a !!! i) (p !!! i) (e !!! i) (x !!! i) in
  ret {| E_out := <[i := E]> (E_out out);
         L_out := <[i := L]> (L_out out);
         Q_out := <[i := Q]> (Q_out out) |}.

Definition KerrGeoConstantsOfMotionVectorized
    (out : constants_arrays) (a p e x : list float) (n : Z)
  : Comp constants_arrays :=
  for_loop (Z.to_nat n) 0%nat
           (KerrGeoConstantsOfMotionVectorized_body a p e x) out.

Definition get_separatrix_vector (fuel : nat)
    (separatrix a e x : list float) (length : Z) : Comp (list float) :=
  for_loop (Z.to_nat length) 0%nat
    (fun i separatrix =>
       v <- get_separatrix fuel (a !!! i) (e !!! i) (x !!! i) ;;
       ret (<[i := v]> separatrix))
    separatrix.

Definition Y_to_xI_vector (fuel : nat)
    (x a p e Y : list float) (length : Z) : Comp (list float) :=
  for_loop (Z.to_nat length) 0%nat
    (fun i x =>
       v <- Y_to_xI fuel (a !!! i) (p !!! i) (e !!! i) (Y !!! i) ;;
       ret (<[i := v]> x))
    x.

End MoreUtility.

(** ** Secondary spin *)

Module SecondarySpin.
Section SecondarySpin.
Context {env : Env}.

Definition P (r a En xi : float) : float :=
  En * r * r - a * xi.

Definition deltaP (r a En xi deltaEn deltaxi : float) : float :=
  deltaEn * r * r - xi / r - a * deltaxi.

Definition deltaRt (r am1 a0 a1 a2 : float) : float :=
  am1 / r + a0 + r * (a1 + r * a2).

(** Returns [(deltaOmegaR, deltaOmegaPhi)]. *)
Definition KerrEqSpinFrequenciesCorrection (a p e x : float)
  : Comp (float * float) :=
  print "a, p, e, x, sep = %f %f %f %f\n" [a; p; e; x] ;;;
  let M := 1 in
  let En :=
    KerrGeoEnergy a p e x in
  let xi :=
    KerrGeoAngularMomentum a p e x En - a * En in
  let '(r1, r2, r3, r4) := KerrGeoRadialRoots a p e x En 0 in
  let deltaEn :=
    (xi * ((- (a * pow En 2 * pow r1 2 * pow r2 2)) - En * pow r1 2 * pow
      r2 2 * xi + pow a 2 * En * (pow r1 2 + r1 * r2 + pow r2 2) * xi + a
      * (pow r1 2 + r1 * ((-2) + r2) + ((-2) + r2) * r2) * pow xi 2)) /
      (pow r1 2 * pow r2 2 * (a * pow En 2 * r1 * r2 * (r1 + r2) + En *
      (pow r1 2 * ((-2) + r2) + r1 * ((-2) + r2) * r2 - 2 * pow r2 2) * xi
      + 2 * a * pow xi 2)) in
  let deltaxi :=
    ((pow r1 2 + r1 * r2 + pow r2 2) * xi * (En * pow r2 2 - a * xi) * ((-
      (En * pow r1 2)) + a * xi)) / (pow r1 2 * pow r2 2 * (a * pow En 2 *
      r1 * r2 * (r1 + r2) + En * (pow r1 2 * ((-2) + r2) + r1 * ((-2) +
      r2) * r2 - 2 * pow r2 2) * xi + 2 * a * pow xi 2)) in
  let am1 :=
    ((-2) * a * pow xi 2) / (r1 * r2) in
  let a0 :=
    (-2) * En * ((- (a * deltaxi)) + deltaEn * pow r1 2 + deltaEn * r1 *
      r2 + deltaEn * pow r2 2) + 2 * (a * deltaEn + deltaxi) * xi in
  let a1 :=
    (-2) * deltaEn * En * (r1 + r2) in
  let a2 :=
    (-2) * deltaEn * En in
  let kr :=
    (r1 - r2) / (r1 - r3) * (r3 - r4) / (r2 - r4) in
  let hr :=
    (r1 - r2) / (r1 - r3) in
  let rp :=
    M + sqrt (pow M 2 - pow a 2) in
  let rm :=
    M - sqrt (pow M 2 - pow a 2) in
  let hp :=
    ((r1 - r2) * (r3 - rp)) / ((r1 - r3) * (r2 - rp)) in
  let hm :=
    ((r1 - r2) * (r3 - rm)) / ((r1 - r3) * (r2 - rm)) in
  Kkr <- EllipticK kr ;;
  Ekr <- EllipticE kr ;;
  Pihrkr <- EllipticPi hr kr ;;
  Pihmkr <- EllipticPi hm kr ;;
  Pihpkr <- EllipticPi hp kr ;;
  let Vtr3 :=
    a * xi + ((pow a 2 + pow r3 2) * P r3 a En xi) / CapitalDelta r3 a in
  let deltaVtr3 :=
    a * deltaxi + (r3 * r3 + a * a) / CapitalDelta r3 a * deltaP r3 a En
      xi deltaEn deltaxi in
  let deltaIt1 :=
    (2 * ((deltaEn * Pihrkr * (r2 - r3) * (4 + r1 + r2 + r3)) / 2 + (Ekr *
      (r1 - r3) * (deltaEn * r1 * r2 * r3 + 2 * xi)) / (2 * r1 * r3) +
      ((r2 - r3) * ((Pihmkr * (pow a 2 + pow rm 2) * deltaP rm a En xi
      deltaEn deltaxi) / ((r2 - rm) * (r3 - rm)) - (Pihpkr * (pow a 2 +
      pow rp 2) * deltaP rp a En xi deltaEn deltaxi) / ((r2 - rp) * (r3 -
      rp)))) / ((- rm) + rp) + Kkr * ((-0.5) * (deltaEn * (r1 - r3) * (r2
      - r3)) + deltaVtr3))) / sqrt ((1 - pow En 2) * (r1 - r3) * (r2 -
      r4)) in
  let cK :=
    Kkr * ((-0.5) * (a2 * En * (r1 - r3) * (r2 - r3)) + (pow a 4 * En * r3
      * ((- am1) + pow r3 2 * (a1 + 2 * a2 * r3)) + 2 * pow a 2 * En * pow
      r3 2 * ((- (am1 * ((-2) + r3))) + a0 * r3 + pow r3 3 * (a1 - a2 + 2
      * a2 * r3)) + En * pow r3 5 * ((-2) * a0 - am1 + r3 * (a1 * ((-4) +
      r3) + 2 * a2 * ((-3) + r3) * r3)) + 2 * pow a 3 * (2 * am1 + a0 * r3
      - a2 * pow r3 3) * xi + 2 * a * r3 * (am1 * ((-6) + 4 * r3) + r3 *
      (2 * a1 * ((-1) + r3) * r3 + a2 * pow r3 3 + a0 * ((-4) + 3 * r3)))
      * xi) / (pow r3 2 * pow (r3 - rm) 2 * pow (r3 - rp) 2)) in
  let cEPi :=
    (En * (a2 * Ekr * r2 * (r1 - r3) + Pihrkr * (r2 - r3) * (2 * a1 + a2 *
      (4 + r1 + r2 + 3 * r3)))) / 2 in
  let cPi :=
    (((- r2) + r3) * ((Pihmkr * (pow a 2 + pow rm 2) * P rm a En xi *
      deltaRt rm am1 a0 a1 a2) / ((r2 - rm) * pow (r3 - rm) 2 * rm) -
      (Pihpkr * (pow a 2 + pow rp 2) * P rp a En xi * deltaRt rp am1 a0 a1
      a2) / ((r2 - rp) * pow (r3 - rp) 2 * rp))) / ((- rm) + rp) in
  let cE :=
    (Ekr * ((2 * am1 * ((- r1) + r3) * xi) / (a * r1) + (r2 * Vtr3 *
      deltaRt r3 am1 a0 a1 a2) / (r2 - r3))) / pow r3 2 in
  let deltaIt2 :=
    (- ((cE + cEPi + cK + cPi) / (pow (1 - pow En 2) 1.5 * sqrt ((r1 - r3)
      * (r2 - r4))))) in
  let deltaIt :=
    deltaIt1 + deltaIt2 in
  let It :=
    (2 * ((En * (Ekr * r2 * (r1 - r3) + Pihrkr * (r2 - r3) * (4 + r1 + r2
      + r3))) / 2 + ((r2 - r3) * ((Pihmkr * (pow a 2 + pow rm 2) * P rm a
      En xi) / ((r2 - rm) * (r3 - rm)) - (Pihpkr * (pow a 2 + pow rp 2) *
      P rp a En xi) / ((r2 - rp) * (r3 - rp)))) / ((- rm) + rp) + Kkr *
      ((-0.5) * (En * (r1 - r3) * (r2 - r3)) + Vtr3))) / sqrt ((1 - pow En
      2) * (r1 - r3) * (r2 - r4)) in
  let VPhir3 :=
    xi + a / CapitalDelta r3 a * P r3 a En xi in
  let deltaVPhir3 :=
    deltaxi + a / CapitalDelta r3 a * deltaP r3 a En xi deltaEn deltaxi in
  let deltaIPhi1 :=
    (2 * ((Ekr * (r1 - r3) * xi) / (a * r1 * r3) + (a * (r2 - r3) *
      ((Pihmkr * deltaP rm a En xi deltaEn deltaxi) / ((r2 - rm) * (r3 -
      rm)) - (Pihpkr * deltaP rp a En xi deltaEn deltaxi) / ((r2 - rp) *
      (r3 - rp)))) / ((- rm) + rp) + Kkr * deltaVPhir3)) / sqrt ((1 - pow
      En 2) * (r1 - r3) * (r2 - r4)) in
  let dK :=
    (Kkr * ((- (a * En * pow r3 2 * (2 * a0 * ((-1) + r3) * r3 + (a1 + 2 *
      a2) * pow r3 3 + am1 * ((-4) + 3 * r3)))) - pow a 3 * En * r3 * (am1
      - pow r3 2 * (a1 + 2 * a2 * r3)) - pow a 2 * (am1 * ((-4) + r3) - 2
      * a0 * r3 - (a1 + 2 * a2 * ((-1) + r3)) * pow r3 3) * xi - pow ((-2)
      + r3) 2 * r3 * (3 * am1 + r3 * (2 * a0 + a1 * r3)) * xi)) / (pow r3
      2 * pow (r3 - rm) 2 * pow (r3 - rp) 2) in
  let dPi :=
    (- ((a * (r2 - r3) * ((Pihmkr * P rm a En xi * deltaRt rm am1 a0 a1
      a2) / ((r2 - rm) * pow (r3 - rm) 2 * rm) - (Pihpkr * P rp a En xi *
      deltaRt rp am1 a0 a1 a2) / ((r2 - rp) * pow (r3 - rp) 2 * rp))) /
      ((- rm) + rp))) in
  let dE :=
    (Ekr * (((-2) * am1 * (r1 - r3) * xi) / (pow a 2 * r1) + (r2 * VPhir3
      * deltaRt r3 am1 a0 a1 a2) / (r2 - r3))) / pow r3 2 in
  let deltaIPhi2 :=
    (- ((dE + dK + dPi) / (pow (1 - pow En 2) 1.5 * sqrt ((r1 - r3) * (r2
      - r4))))) in
  let deltaIPhi :=
    deltaIPhi1 + deltaIPhi2 in
  let IPhi :=
    (2 * ((a * (r2 - r3) * ((Pihmkr * P rm a En xi) / ((r2 - rm) * (r3 -
      rm)) - (Pihpkr * P rp a En xi) / ((r2 - rp) * (r3 - rp)))) / ((- rm)
      + rp) + Kkr * VPhir3)) / sqrt ((1 - pow En 2) * (r1 - r3) * (r2 -
      r4)) in
  let deltaOmegaR :=
    (- M_PI) / pow It 2 * deltaIt in
  let deltaOmegaPhi :=
    deltaIPhi / It - IPhi / pow It 2 * deltaIt in
  print "deltaOmegaR_, deltaOmegaPhi_, = %f %f\n"
        [deltaOmegaR; deltaOmegaPhi] ;;;
  ret (deltaOmegaR, deltaOmegaPhi).

(** One iteration of the loop of [KerrEqSpinFrequenciesCorrVectorized]:
    the correction is called on [&OmegaR_[i]] and [&OmegaPhi_[i]]. *)
Definition KerrEqSpinFrequenciesCorrVectorized_body
    (a p e x : list float) (i : nat) (out : freq_arrays) : Comp freq_arrays :=
  '(deltaOmegaR, deltaOmegaPhi)
    <- KerrEqSpinFrequenciesCorrection (a !!! i) (p !!! i) (e !!! i)
                                       (x !!! i) ;;
  ret {| OmegaPhi_ := <[i := deltaOmegaPhi]> (OmegaPhi_ out);
         OmegaTheta_ := OmegaTheta_ out;
         OmegaR_ := <[i := deltaOmegaR]> (OmegaR_ out) |}.

Definition KerrEqSpinFrequenciesCorrVectorized
    (out : freq_arrays) (a p e x : list float) (length : Z)
  : Comp freq_arrays :=
  for_loop (Z.to_nat length) 0%nat
           (KerrEqSpinFrequenciesCorrVectorized_body a p e x) out.

End SecondarySpin.
End SecondarySpin.

(** * More of [ode_base_example.cc] *)

(** The 5PN flux series of the absent header [dIdt8H_5PNe10.h]; the last two
    arguments are the orders [Nv] and [ne]. *)
Class Pn5Env : Type := {
  dpdt8H_5PNe10 : float -> float -> float -> float -> Z -> Z -> float;
  dedt8H_5PNe10 : float -> float -> float -> float -> Z -> Z -> float;
  dYdt8H_5PNe10 : float -> float -> float -> float -> Z -> Z -> float;
}.

Section pn5.
Context {env : Env} {ode : OdeEnv} {series : Pn5Env}.

(** The third derivative pointer, [Ydot], is the field [xdot]. *)
Definition pn5 (fuel : nat) (out : deriv_out) (epsilon a p e Y : float)
  : Comp deriv_out :=
  '(Omega_phi, Omega_theta, Omega_r)
    <- (if abs Y =? 1 then
          let x := Y in
          KerrGeoEquatorialCoordinateFrequencies a p e x
        else
          x <- Y_to_xI fuel a p e Y ;;
          KerrGeoCoordinateFrequencies a p e x) ;;
  let out := set_Omega Omega_phi Omega_theta Omega_r out in
  let Nv := 10%Z in
  let ne := 10%Z in
  let out := set_pdot (epsilon * dpdt8H_5PNe10 a p e Y Nv ne) out in
  let Nv := 10%Z in
  let ne := 8%Z in
  let out := set_edot (epsilon * dedt8H_5PNe10 a p e Y Nv ne) out in
  let Nv := 7%Z in
  let ne := 10%Z in
  let out := set_xdot (epsilon * dYdt8H_5PNe10 a p e Y Nv ne) out in
  ret out.

End pn5.

(** * More example runs

    [Orbits.env] is [Example.env] with the complete elliptic integrals, to
    17 digits, at the arguments of two more orbits:
    - [(a, p, e, x) = (0.9, 10, 0.1, 1)], the orbit of the reference values
      in the comment that ends [KerrEqSpinFrequenciesCorrection] (parameter
      [kr = 0.0333615...]);
    - [(a, p, e, x) = (1, 10, 0.1, 0.5)], an inclined orbit at extremal spin
      (parameters [0.00274612...] and [0.00524410...]).
    [Orbits.incomplete] gives the incomplete integrals at modulus 0, where
    each of them is the amplitude [phi]. *)
Module Orbits.

Definition ellint_Kcomp (k : float) : Z * float :=
  if k =? sqrt 0.033361544451250724
  then (GSL_SUCCESS, 1.5841490725881837)
  else if k =? sqrt 0.0027461228294645436
  then (GSL_SUCCESS, 1.5718763956896542)
  else if k =? sqrt 0.0052441030434759407
  then (GSL_SUCCESS, 1.5728617781562235)
  else Example.ellint_Kcomp k.

Definition ellint_Ecomp (k : float) : Z * float :=
  if k =? sqrt 0.033361544451250724
  then (GSL_SUCCESS, 1.5576121676762396)
  else if k =? sqrt 0.0027461228294645436
  then (GSL_SUCCESS, 1.5697173709792414)
  else if k =? sqrt 0.0052441030434759407
  then (GSL_SUCCESS, 1.568734943008115)
  else Example.ellint_Ecomp k.

Definition ellint_Pcomp (k n : float) : Z * float :=
  if (k =? sqrt 0.033361544451250724) && (n =? -0.20911399091465974)
  then (GSL_SUCCESS, 1.7821938640358943)
  else if (k =? sqrt 0.033361544451250724) && (n =? -0.021734234916529125)
  then (GSL_SUCCESS, 1.6017246427596121)
  else if (k =? sqrt 0.033361544451250724)
          && (n =? -0.00039478691543906727)
  then (GSL_SUCCESS, 1.5844631926444217)
  else if (k =? sqrt 0.0027461228294645436)
          && (n =? -0.0021733812094196069)
  then (GSL_SUCCESS, 1.5735879168198104)
  else if (k =? sqrt 0.0027461228294645436) && (n =? -0.20153933900973542)
  then (GSL_SUCCESS, 1.7591724394090877)
  else if (k =? sqrt 0.0052441030434759407) && (n =? -0.75)
  then (GSL_SUCCESS, 3.1471023343386553)
  else Example.ellint_Pcomp k n.

Definition env : Env := {|
  pow := Example.libm_pow;
  log := fun _ => nan;
  Power := Example.libm_pow;
  Sqrt := sqrt;
  Pi := M_PI;
  gsl_sf_ellint_Kcomp_e := ellint_Kcomp;
  gsl_sf_ellint_Ecomp_e := ellint_Ecomp;
  gsl_sf_ellint_Pcomp_e := ellint_Pcomp;
  gsl_root_fsolver := Example.fsolver;
  gsl_root_fsolver_set := Example.fsolver_set;
  gsl_root_fsolver_iterate := Example.fsolver_iterate;
  gsl_root_fsolver_root := Example.fsolver_root;
  gsl_root_fsolver_x_lower := Example.fsolver_x_lower;
  gsl_root_fsolver_x_upper := Example.fsolver_x_upper;
  gsl_root_test_interval := Example.test_interval;
|}.

Definition ellint_F (phi k : float) : Z * float :=
  if k =? 0 then (GSL_SUCCESS, phi) else (Example.GSL_EDOM, nan).
Definition ellint_E (phi k : float) : Z * float :=
  if k =? 0 then (GSL_SUCCESS, phi) else (Example.GSL_EDOM, nan).
Definition ellint_P (phi k n : float) : Z * float :=
  if (k =? 0) && (n =? 0) then (GSL_SUCCESS, phi)
  else (Example.GSL_EDOM, nan).

Definition incomplete : GslIncomplete := {|
  gsl_sf_ellint_F_e := ellint_F;
  gsl_sf_ellint_E_e := ellint_E;
  gsl_sf_ellint_P_e := ellint_P;
|}.

(** An ODE environment whose frequency engine returns NaNs. *)
Definition nan_engine : OdeEnv := {|
  KerrGeoEquatorialCoordinateFrequencies := fun _ _ _ _ => ret (nan, nan, nan);
  Interpolant := unit;
  Interpolant_eval := fun _ _ _ => ret 0;
  TensorInterpolant := unit;
  TensorInterpolant_eval := fun _ _ _ _ => ret 0;
|}.

(** Flux series that are constant, to run [pn5]. *)
Definition constant_series : Pn5Env := {|
  dpdt8H_5PNe10 := fun _ _ _ _ _ _ => -1;
  dedt8H_5PNe10 := fun _ _ _ _ _ _ => -2;
  dYdt8H_5PNe10 := fun _ _ _ _ _ _ => -3;
|}.

(** What a call leaves in its output, when it returns. *)
Definition returned {A} (default : A) (c : Comp A) : A :=
  match snd c with
  | Return v => v
  | _ => default
  end.

(** Output arrays of one cell for the constants of motion. *)
Definition constants_cell : constants_arrays :=
  {| E_out := [0]; L_out := [0]; Q_out := [0] |}.

(** The frequencies of the first orbit of [Example.spins], the second cell
    left as it was. *)
Definition written_first : freq_arrays :=
  Eval vm_compute in
    returned Example.buffers
      (@KerrGeoCoordinateFrequenciesVectorized Example.env Example.buffers
         Example.spins Example.ps Example.es Example.xs 1).

(** Two separatrices in an array of three cells: spin 0 with [e = 0.5], and
    the polar orbit ([x = 0]) of spin 0.5 with [e = 0.2]. *)
Definition separatrices : list float :=
  Eval vm_compute in
    returned []
      (@get_separatrix_vector Example.env 2 [0; 0; 0]
         [0; 0.5] [0.5; 0.2] [1; 0] 2).

(** Two inclinations in an array of three cells, for [Y = 0.5] (a solve)
    and [Y = 0.999] (returned as it is). *)
Definition inclinations : list float :=
  Eval vm_compute in
    returned []
      (@Y_to_xI_vector Example.env 2 [0; 0; 0]
         [0.5; 0.5] [16; 16] [0.5; 0.5] [0.5; 0.999] 2).

(** The Mino frequencies of the orbit at extremal spin. *)
Definition extremal : float * float * float * float :=
  Eval vm_compute in
    returned (0, 0, 0, 0) (@KerrGeoMinoFrequencies env 1 10 0.1 0.5).

(** What [SchwarzEccFlux::deriv_func] leaves at [p = 16], [e = 0]. *)
Definition flux_out : deriv_out :=
  Eval vm_compute in
    returned Example.before
      (@SchwarzEccFlux.deriv_func Example.env Example.probe
         (@SchwarzEccFlux.Build_interp_params Example.probe tt tt)
         Example.before 1 0 16 0 1).

(** The correction of the first of two equal orbits, and what it prints. *)
Definition corrected : freq_arrays :=
  Eval vm_compute in
    returned Example.buffers
      (@SecondarySpin.KerrEqSpinFrequenciesCorrVectorized env Example.buffers
         [0.9; 0.9] [10; 10] [0.1; 0.1] [1; 1] 1).
Definition corrected_log : list event :=
  Eval vm_compute in
    fst (@SecondarySpin.KerrEqSpinFrequenciesCorrVectorized env
           Example.buffers [0.9; 0.9] [10; 10] [0.1; 0.1] [1; 1] 1).

End Orbits.

(** * Theorems *)

(** ** The monad *)

Lemma bind_ret_l {A B} (v : A) (k : A -> Comp B) : bind (ret v) k = k v.
Proof. unfold bind, ret. now destruct (k v). Qed.

Lemma bind_ret_r {A} (c : Comp A) : bind c ret = c.
Proof.
  destruct c as [l [v | ex | ]]; simpl; try reflexivity.
  now rewrite app_nil_r.
Qed.

Lemma bind_assoc {A B C} (c : Comp A) (k : A -> Comp B) (k' : B -> Comp C) :
  bind (bind c k) k' = bind c (fun v => bind (k v) k').
Proof.
  destruct c as [l [v | ex | ]]; simpl; try reflexivity.
  destruct (k v) as [l1 [w | ex | ]]; simpl; try reflexivity.
  destruct (k' w) as [l2 r]. now rewrite app_assoc.
Qed.

Lemma bind_ext {A B} (c : Comp A) (k k' : A -> Comp B) :
  (forall v, k v = k' v) -> bind c k = bind c k'.
Proof.
  intros H. destruct c as [l [v | ex | ]]; simpl; try reflexivity.
  now rewrite H.
Qed.

(** A call that returns, continued. *)
Lemma bind_Return {A B} (c : Comp A) (k : A -> Comp B) l v :
  c = (l, Return v) -> bind c k = (l ++ fst (k v), snd (k v)).
Proof. intros ->. simpl. now destruct (k v). Qed.

(** What it takes for a sequence to return. *)
Lemma bind_Return_inv {A B} (c : Comp A) (k : A -> Comp B) l w :
  bind c k = (l, Return w) ->
  exists l1 v l2, c = (l1, Return v) /\ k v = (l2, Return w) /\ l = l1 ++ l2.
Proof.
  destruct c as [l1 [v | ex | ]]; simpl; try discriminate.
  destruct (k v) as [l2 r] eqn:Hk. intros [= <- ->].
  now exists l1, v, l2.
Qed.

(** ** sanity_check *)

(** C10. [sanity_check] returns 1 exactly when [p < 0], or [e > 1], or
    [e < 0], or [Y > 1], or [Y < -1], or [a > 1], or [a < 0], and 0
    otherwise; so it returns 0 at [e = 1.0] when the other three are in
    range; and for every input it prints nothing (the log is empty) and
    does not throw (it returns). *)
Theorem sanity_check_spec (a p e Y : float) :
  sanity_check a p e Y =
    ([], Return (if (p <? 0) || gtb e 1 || (e <? 0) || gtb Y 1 || (Y <? -1)
                    || gtb a 1 || (a <? 0)
                 then 1%Z else 0%Z))
  /\ sanity_check a p 1 Y =
    ([], Return (if (p <? 0) || gtb Y 1 || (Y <? -1) || gtb a 1 || (a <? 0)
                 then 1%Z else 0%Z)).
Proof.
  unfold sanity_check. split.
  - destruct (p <? 0), (gtb e 1), (e <? 0), (gtb Y 1), (Y <? -1), (gtb a 1),
      (a <? 0); reflexivity.
  - replace (gtb 1 1) with false by reflexivity.
    replace (1 <? 0) with false by reflexivity.
    destruct (p <? 0), (gtb Y 1), (Y <? -1), (gtb a 1), (a <? 0);
      reflexivity.
Qed.

(** ** Facts on binary64 *)

Lemma is_nan_Prim2SF (x : float) :
  is_nan x = true -> Prim2SF x = S754_nan.
Proof.
  unfold is_nan. rewrite FloatAxioms.eqb_spec. unfold SFeqb.
  destruct (Prim2SF x) as [s | s | | s m ex]; try reflexivity; simpl.
  - now destruct s.
  - now destruct s.
  - destruct s; rewrite Z.compare_refl, Pos.compare_cont_refl; discriminate.
Qed.

Lemma is_nan_eq (x : float) : is_nan x = true -> x = nan.
Proof.
  intros H. apply Prim2SF_inj. now rewrite (is_nan_Prim2SF x H).
Qed.

Lemma neb_self (x : float) : neb x x = is_nan x.
Proof. reflexivity. Qed.

Lemma ltb_nan_l (y : float) : (nan <? y) = false.
Proof. rewrite FloatAxioms.ltb_spec. reflexivity. Qed.

Lemma ltb_nan_r (x : float) : (x <? nan) = false.
Proof.
  rewrite FloatAxioms.ltb_spec. unfold SFltb, SFcompare.
  now destruct (Prim2SF x) as [s | s | | s m ex]; simpl.
Qed.

(** Two doubles, the second finite and not zero, neither below the other:
    they are the same double unless the first is a NaN. *)
Lemma not_ltb_eq (x y : float) s m ex :
  Prim2SF y = S754_finite s m ex ->
  is_nan x = false -> (x <? y) = false -> (y <? x) = false -> x = y.
Proof.
  intros Hy Hx. rewrite !FloatAxioms.ltb_spec, Hy. unfold SFltb, SFcompare.
  destruct (Prim2SF x) as [sx | sx | | sx mx exx] eqn:Ex.
  - destruct sx, s; discriminate.
  - destruct sx; discriminate.
  - exfalso. assert (x = nan) as -> by (apply Prim2SF_inj; now rewrite Ex).
    discriminate Hx.
  - intros H1 H2. apply Prim2SF_inj. rewrite Ex, Hy.
    assert (exx = ex /\ mx = m) as [-> ->]; [ | now destruct sx, s ].
    change (PosDef.Pos.compare_cont Eq) with Pos.compare in *.
    rewrite (Z.compare_antisym exx ex), (Pos.compare_antisym mx m) in H2.
    destruct sx, s; try discriminate;
      destruct (Z.compare_spec exx ex) as [-> | | ]; simpl in *;
      try discriminate;
      destruct (Pos.compare_spec mx m) as [-> | | ]; simpl in *;
      now try discriminate.
Qed.

Lemma is_nan_finite (c : float) s m ex :
  Prim2SF c = S754_finite s m ex -> is_nan c = false.
Proof.
  intros Hc. unfold is_nan. rewrite FloatAxioms.eqb_spec, Hc.
  unfold SFeqb, SFcompare.
  destruct s; now rewrite Z.compare_refl, Pos.compare_cont_refl.
Qed.

Lemma ltb_asym (x y : float) : (x <? y) = true -> (y <? x) = false.
Proof.
  rewrite !FloatAxioms.ltb_spec. unfold SFltb, SFcompare.
  destruct (Prim2SF x) as [sx | sx | | sx mx exx],
           (Prim2SF y) as [sy | sy | | sy my ey];
    try discriminate; try reflexivity;
    try (destruct sx; (discriminate || reflexivity));
    try (destruct sy; (discriminate || reflexivity));
    try (destruct sx, sy; (discriminate || reflexivity)).
  change (PosDef.Pos.compare_cont Eq) with Pos.compare.
  rewrite (Z.compare_antisym exx ey), (Pos.compare_antisym mx my).
  destruct sx, sy; try discriminate; try reflexivity;
    destruct (exx ?= ey)%Z; simpl; try discriminate; try reflexivity;
    destruct (mx ?= my)%positive; simpl; try discriminate; reflexivity.
Qed.

Lemma ltb_eqb (x y : float) :
  (x <? y) = true -> (x =? y) = false /\ (y =? x) = false.
Proof.
  rewrite FloatAxioms.ltb_spec, !FloatAxioms.eqb_spec.
  unfold SFltb, SFeqb, SFcompare.
  destruct (Prim2SF x) as [sx | sx | | sx mx exx],
           (Prim2SF y) as [sy | sy | | sy my ey];
    try discriminate;
    try (destruct sx; (discriminate || (split; reflexivity)));
    try (destruct sy; (discriminate || (split; reflexivity)));
    try (destruct sx, sy; (discriminate || (split; reflexivity))).
  change (PosDef.Pos.compare_cont Eq) with Pos.compare.
  rewrite (Z.compare_antisym exx ey), (Pos.compare_antisym mx my).
  destruct sx, sy; try discriminate; try (split; reflexivity);
    destruct (exx ?= ey)%Z; simpl; try discriminate; try (split; reflexivity);
    destruct (mx ?= my)%positive; simpl; try discriminate; split; reflexivity.
Qed.

(** NaN is absorbing for the arithmetic of doubles. *)
Lemma mul_nan_l (y : float) : nan * y = nan.
Proof. apply Prim2SF_inj. rewrite FloatAxioms.mul_spec. reflexivity. Qed.

Lemma mul_nan_r (x : float) : x * nan = nan.
Proof.
  apply Prim2SF_inj. rewrite FloatAxioms.mul_spec.
  now destruct (Prim2SF x) as [s | s | | s m ex].
Qed.

Lemma div_nan_l (y : float) : nan / y = nan.
Proof. apply Prim2SF_inj. rewrite FloatAxioms.div_spec. reflexivity. Qed.

Lemma add_nan_l (y : float) : nan + y = nan.
Proof. apply Prim2SF_inj. rewrite FloatAxioms.add_spec. reflexivity. Qed.

(** ** The circular closed form over the reals *)

Section RealLimit.
Local Open Scope R_scope.











End RealLimit.

Section Theorems.
Context {env : Env}.

(** ** Constants of motion *)


(** ** Inclination mapping *)

Lemma clamp_lower (x c : float) s m ex :
  Prim2SF c = S754_finite s m ex ->
  (if gtb x c then x else c) = fmax x c.
Proof.
  intros Hc. unfold fmax, gtb.
  rewrite (is_nan_finite c s m ex Hc).
  destruct (is_nan x) eqn:Hx.
  - rewrite (is_nan_eq x Hx). now rewrite ltb_nan_r.
  - destruct (c <? x) eqn:H1, (x <? c) eqn:H2; try reflexivity.
    + now rewrite (ltb_asym _ _ H1) in H2.
    + symmetry. now apply (not_ltb_eq x c s m ex).
Qed.

Lemma clamp_upper (x c : float) s m ex :
  Prim2SF c = S754_finite s m ex ->
  (if x <? c then x else c) = fmin x c.
Proof.
  intros Hc. unfold fmin.
  rewrite (is_nan_finite c s m ex Hc).
  destruct (is_nan x) eqn:Hx.
  - rewrite (is_nan_eq x Hx). now rewrite ltb_nan_l.
  - destruct (c <? x) eqn:H1, (x <? c) eqn:H2; try reflexivity.
    + now rewrite (ltb_asym _ _ H1) in H2.
    + symmetry. now apply (not_ltb_eq x c s m ex).
Qed.

(** C7. [Y_to_xI] is the inclination mapper of the specification: when
    [|Y| > 0.998] it returns [Y] with no solve; otherwise it returns what
    the bracketed solver returns for the function [Y - L/sqrt(L^2 + Q)],
    with [(E, L, Q)] recomputed by [KerrGeoConstantsOfMotion] at each trial
    [x], over the bracket [[max(Y-0.15, -0.998), min(Y+0.15, 0.998)]]. *)
Theorem Y_to_xI_refines_spec (fuel : nat) (a p e Y : float) :
  Y_to_xI fuel a p e Y = Y_to_xI_spec fuel a p e Y.
Proof.
  unfold Y_to_xI, Y_to_xI_spec.
  change (gtb (abs Y) YLIM) with (gtb (abs Y) 0.998).
  destruct (gtb (abs Y) 0.998); [reflexivity | ].
  cbv zeta. rewrite bind_ret_r.
  rewrite (clamp_lower (Y - 0.15) (- YLIM) true 8989184856231510 (-53))
    by reflexivity.
  rewrite (clamp_upper (Y + 0.15) YLIM false 8989184856231510 (-53))
    by reflexivity.
  reflexivity.
Qed.

(** ** The separatrix *)


(** C5. For a spin [a] in (0, 1] and an orbit that is not circular
    equatorial, [get_separatrix] first solves the polar polynomial over
    [[1 + sqrt 3 + sqrt (3 + 2 sqrt 3), 8]] for [polar_p_sep]; it returns
    [polar_p_sep] when [x = 0]; when [x > 0] it solves the equatorial
    polynomial over [[1 + e, 6 + 2e]] for [equat_p_sep] and then the full
    polynomial over [[equat_p_sep, polar_p_sep]]; when [x < 0] it solves the
    full polynomial over [[polar_p_sep, 12]]; what the last solve returns
    is the result. *)
Theorem get_separatrix_staged (fuel : nat) (a e x : float) :
  (0 <? a) = true -> (a <=? 1) = true ->
  (e =? 0) && (abs x =? 1) = false ->
  let params := params_holder.mk a 0 e x 0 in
  let polar :=
    solver fuel params separatrix_polynomial_polar
           (1 + sqrt 3 + sqrt (3 + 2 * sqrt 3)) 8 in
  ((x =? 0) = true -> get_separatrix (S fuel) a e x = polar)
  /\ (gtb x 0 = true ->
      get_separatrix (S fuel) a e x =
        (polar_p_sep <- polar ;;
         equat_p_sep <- solver fuel params separatrix_polynomial_equat
                               (1 + e) (6 + 2 * e) ;;
         solver fuel params separatrix_polynomial_full
                equat_p_sep polar_p_sep))
  /\ ((x <? 0) = true ->
      get_separatrix (S fuel) a e x =
        (polar_p_sep <- polar ;;
         solver fuel params separatrix_polynomial_full polar_p_sep 12)).
Proof.
  intros Ha _ Hce params polar.
  destruct (ltb_eqb 0 a Ha) as [_ Ha0].
  assert (Hgen : get_separatrix (S fuel) a e x =
    (polar_p_sep <- polar ;;
     if x =? 0 then ret polar_p_sep else
     '(x_lo, x_hi) <-
        (if gtb x 0 then
           equat_p_sep <- solver fuel params separatrix_polynomial_equat
                                 (1 + e) (6 + 2 * e) ;;
           ret (equat_p_sep, polar_p_sep)
         else ret (polar_p_sep, 12)) ;;
     p_sep <- solver fuel params separatrix_polynomial_full x_lo x_hi ;;
     ret p_sep)).
  { simpl. rewrite Ha0, Hce. reflexivity. }
  rewrite Hgen. repeat split.
  - intros ->. apply bind_ret_r.
  - intros Hx. destruct (ltb_eqb 0 x Hx) as [_ ->]. unfold gtb in Hx |- *.
    rewrite Hx. apply bind_ext. intros pp.
    rewrite bind_assoc. apply bind_ext. intros ep.
    rewrite bind_ret_l. apply bind_ret_r.
  - intros Hx. destruct (ltb_eqb x 0 Hx) as [-> _]. unfold gtb.
    rewrite (ltb_asym x 0 Hx). apply bind_ext. intros pp.
    rewrite bind_ret_l. apply bind_ret_r.
Qed.

(** ** The bracketed root solver *)

(** With iterations left to reach [max_iter], the loop runs its body until
    [iter] is at most [max_iter], and it ends with [GSL_CONTINUE] only at
    [max_iter]. *)
Lemma solver_loop_iter (left : nat) (s : gsl_root_fsolver) (iter : Z) :
  (0 <= iter < max_iter)%Z -> (max_iter <= iter + Z.of_nat left)%Z ->
  let '(status, iter', _, _, _) := solver_loop left s iter in
  (iter < iter' <= max_iter)%Z
  /\ (status = GSL_CONTINUE -> iter' = max_iter).
Proof.
  revert s iter. induction left as [ | left IH]; intros s iter H0 Hle.
  - exfalso. lia.
  - cbn [solver_loop]. destruct (gsl_root_fsolver_iterate s) as [st s'].
    destruct ((gsl_root_test_interval _ _ 0 epsrel =? GSL_CONTINUE)%Z
              && (iter + 1 <? max_iter)%Z) eqn:Hc.
    + apply andb_prop in Hc. destruct Hc as [_ Hc]. apply Z.ltb_lt in Hc.
      specialize (IH s' (iter + 1)%Z ltac:(lia) ltac:(lia)).
      destruct (solver_loop left s' (iter + 1)) as [[[[st' it'] r'] lo'] hi'].
      destruct IH as [IH1 IH2]. split; [lia | assumption].
    + split; [lia | ].
      intros Hst. rewrite Hst in Hc. simpl in Hc.
      apply Z.ltb_ge in Hc. lia.
Qed.

(** When the loop of [solver] ends with the tolerance not met
    ([GSL_CONTINUE]), the iteration cap was reached. *)
Lemma solver_loop_continue_at_cap (s : gsl_root_fsolver) status iter r lo hi :
  solver_loop (Z.to_nat max_iter) s 0 = (status, iter, r, lo, hi) ->
  status = GSL_CONTINUE -> iter = max_iter.
Proof.
  intros Hl Hst.
  pose proof (solver_loop_iter (Z.to_nat max_iter) s 0) as H.
  rewrite Hl in H. apply H; [ | | assumption]; unfold max_iter; lia.
Qed.

(** The solve that meets the tolerance returns the root estimate and prints
    nothing. *)
Lemma solver_success sep params func x_lo x_hi iter r lo hi :
  solver_loop (Z.to_nat max_iter)
    (snd (gsl_root_fsolver_set (fun x => func x params) x_lo x_hi)) 0
  = (GSL_SUCCESS, iter, r, lo, hi) ->
  solver_with sep params func x_lo x_hi = ([], Return r).
Proof.
  intros Hl. unfold solver_with.
  destruct (gsl_root_fsolver_set _ x_lo x_hi) as [st s]. cbn [snd] in Hl.
  rewrite Hl. reflexivity.
Qed.

(** The solve that uses up the iterations without meeting the tolerance
    prints the warning and evaluates [get_separatrix(a, e, r)] for its last
    line; when that call returns, the root estimate is returned. *)
Lemma solver_soft_fail sep params func x_lo x_hi iter r lo hi l v :
  solver_loop (Z.to_nat max_iter)
    (snd (gsl_root_fsolver_set (fun x => func x params) x_lo x_hi)) 0
  = (GSL_CONTINUE, iter, r, lo, hi) ->
  sep (params_holder.a params) (params_holder.e params) r = (l, Return v) ->
  solver_with sep params func x_lo x_hi =
    ([printf "WARNING: Maximum iteration reached in Utility.cc in Brent root solver.\n" [];
      printf "Result=%f, x_low=%f, x_high=%f \n" [r; lo; hi]]
     ++ l ++
     [printf "a, p, e, Y, sep = %f %f %f %f %f\n"
             [params_holder.a params; params_holder.p params;
              params_holder.e params; params_holder.Y params; v]],
     Return r).
Proof.
  intros Hl Hsep. unfold solver_with.
  pose proof (solver_loop_continue_at_cap _ _ _ _ _ _ Hl eq_refl) as ->.
  destruct (gsl_root_fsolver_set _ x_lo x_hi) as [st s]. cbn [snd] in Hl.
  rewrite Hl. cbn -[max_iter]. rewrite Z.eqb_refl. cbn. rewrite Hsep. cbn. now rewrite app_nil_r.
Qed.

(** The only failure that throws: the interval test reports an error before
    the last allowed iteration. *)
Lemma solver_hard_fail sep params func x_lo x_hi status iter r lo hi :
  solver_loop (Z.to_nat max_iter)
    (snd (gsl_root_fsolver_set (fun x => func x params) x_lo x_hi)) 0
  = (status, iter, r, lo, hi) ->
  status <> GSL_SUCCESS -> iter <> max_iter ->
  solver_with sep params func x_lo x_hi =
    ([], Throw (invalid_argument "In Utility.cc Brent root solver failed" [])).
Proof.
  intros Hl Hst Hit. unfold solver_with.
  destruct (gsl_root_fsolver_set _ x_lo x_hi) as [st s]. cbn [snd] in Hl.
  rewrite Hl. apply Z.eqb_neq in Hst, Hit. now rewrite Hst, Hit.
Qed.

End Theorems.

(** The statuses of [gsl_root_fsolver_set] and [gsl_root_fsolver_iterate]
    play no part in the loop. *)
Lemma solver_loop_with_statuses (env : Env) set_status iterate_status
    (left : nat) (s : @gsl_root_fsolver env) (iter : Z) :
  @solver_loop (with_statuses env set_status iterate_status) left s iter
  = @solver_loop env left s iter.
Proof.
  revert s iter. induction left as [ | left IH]; intros s iter.
  - simpl. now destruct (@gsl_root_fsolver_iterate env s).
  - cbn [solver_loop]. cbn [gsl_root_fsolver_iterate with_statuses].
    destruct (@gsl_root_fsolver_iterate env s) as [st s']. cbn [snd].
    cbn [gsl_root_fsolver_root gsl_root_fsolver_x_lower
         gsl_root_fsolver_x_upper gsl_root_test_interval with_statuses].
    now rewrite IH.
Qed.

Lemma solver_with_statuses (env : Env) set_status iterate_status
    sep params func x_lo x_hi :
  @solver_with (with_statuses env set_status iterate_status)
    sep params func x_lo x_hi
  = @solver_with env sep params func x_lo x_hi.
Proof.
  unfold solver_with. cbn [gsl_root_fsolver_set with_statuses].
  destruct (@gsl_root_fsolver_set env _ x_lo x_hi) as [st s]. cbn [snd].
  now rewrite solver_loop_with_statuses.
Qed.

(** [solver] uses the [get_separatrix] it is given through its values. *)
Lemma solver_with_ext (env : Env) sep sep' params func x_lo x_hi :
  (forall a e x, sep a e x = sep' a e x) ->
  @solver_with env sep params func x_lo x_hi
  = @solver_with env sep' params func x_lo x_hi.
Proof.
  intros H. unfold solver_with.
  destruct (gsl_root_fsolver_set _ x_lo x_hi) as [st s].
  destruct (solver_loop _ s 0) as [[[[status iter] r] lo] hi].
  destruct (negb (status =? GSL_SUCCESS)%Z); [ | reflexivity].
  destruct (iter =? max_iter)%Z; [ | reflexivity].
  now rewrite H.
Qed.

Lemma get_separatrix_with_statuses (env : Env) set_status iterate_status
    (fuel : nat) (a e x : float) :
  @get_separatrix (with_statuses env set_status iterate_status) fuel a e x
  = @get_separatrix env fuel a e x.
Proof.
  revert a e x. induction fuel as [ | fuel IH]; intros a e x;
    [reflexivity | ].
  assert (Hs : forall params func x_lo x_hi,
    @solver_with (with_statuses env set_status iterate_status)
      (@get_separatrix (with_statuses env set_status iterate_status) fuel)
      params func x_lo x_hi
    = @solver_with env (@get_separatrix env fuel) params func x_lo x_hi).
  { intros. rewrite solver_with_statuses. now apply solver_with_ext. }
  cbn [get_separatrix].
  destruct (a =? 0); [reflexivity | ].
  destruct ((e =? 0) && (abs x =? 1)); [reflexivity | ].
  cbv zeta. rewrite Hs. apply bind_ext. intros pp.
  destruct (x =? 0); [reflexivity | ].
  destruct (gtb x 0).
  - rewrite Hs. rewrite !bind_assoc. apply bind_ext. intros ep.
    rewrite !bind_ret_l. now rewrite Hs.
  - rewrite !bind_ret_l. now rewrite Hs.
Qed.

(** C6. What [solver] does is the same whatever statuses
    [gsl_root_fsolver_set] and [gsl_root_fsolver_iterate] return: a failure
    they report (an interval that does not bracket a sign change, a function
    value that is not finite) neither raises nor changes the result. *)
Theorem solver_ignores_set_and_iterate_status (env : Env)
    (set_status : (float -> float) -> float -> float -> Z)
    (iterate_status : @gsl_root_fsolver env -> Z)
    (fuel : nat) (params : params_holder.t)
    (func : float -> params_holder.t -> float) (x_lo x_hi : float) :
  @solver (with_statuses env set_status iterate_status)
    fuel params func x_lo x_hi
  = @solver env fuel params func x_lo x_hi.
Proof.
  unfold solver. rewrite solver_with_statuses. apply solver_with_ext.
  apply get_separatrix_with_statuses.
Qed.

(** ** Coordinate frequencies *)

Section Frequencies.
Context {env : Env}.

(** [KerrGeoCoordinateFrequencies] raises exactly on a NaN among
    [CapitalUpsilonPhi], [CapitalGamma] and [CapitalUpsilonR]; the tuple is
    printed, the exception carries the fixed message.
    [CapitalUpsilonTheta] is not tested. *)
Lemma KerrGeoCoordinateFrequencies_outcome (a p e x : float) l
    CapitalGamma CapitalUpsilonPhi CapitalUpsilonTheta CapitalUpsilonR :
  MinoFrequencies a p e x
  = (l, Return (CapitalGamma, CapitalUpsilonPhi, CapitalUpsilonTheta,
                CapitalUpsilonR)) ->
  KerrGeoCoordinateFrequencies a p e x =
    if is_nan CapitalUpsilonPhi || is_nan CapitalGamma
       || is_nan CapitalUpsilonR
    then (l ++ [printf "(a, p, e, x) = (%f , %f , %f , %f) \n" [a; p; e; x]],
          Throw (invalid_argument "Nan in fundamental frequencies" []))
    else (l, Return (CapitalUpsilonPhi / CapitalGamma,
                     CapitalUpsilonTheta / CapitalGamma,
                     CapitalUpsilonR / CapitalGamma)).
Proof.
  intros H. unfold KerrGeoCoordinateFrequencies.
  fold (MinoFrequencies a p e x). rewrite H.
  cbn [bind]. rewrite !neb_self.
  destruct (is_nan CapitalUpsilonPhi || is_nan CapitalGamma
            || is_nan CapitalUpsilonR); cbn; [reflexivity | ].
  now rewrite app_nil_r.
Qed.

(** On the generic path a NaN [CapitalUpsilonTheta] makes
    [CapitalUpsilonPhi] a NaN as well, so it does raise there. *)
Lemma KerrGeoMinoFrequencies_nan_theta (a p e x : float) l
    CapitalGamma CapitalUpsilonPhi CapitalUpsilonTheta CapitalUpsilonR :
  KerrGeoMinoFrequencies a p e x
  = (l, Return (CapitalGamma, CapitalUpsilonPhi, CapitalUpsilonTheta,
                CapitalUpsilonR)) ->
  is_nan CapitalUpsilonTheta = true -> is_nan CapitalUpsilonPhi = true.
Proof.
  unfold KerrGeoMinoFrequencies.
  destruct (KerrGeoRadialRoots _ _ _ _ _ _) as [[[r1 r2] r3] r4].
  intros H.
  repeat (apply bind_Return_inv in H;
          destruct H as (? & ? & ? & _ & H & _)).
  unfold ret in H. injection H as _ HG HP HT HR. subst. intros Hn.
  apply is_nan_eq in Hn. rewrite Hn.
  now rewrite mul_nan_r, div_nan_l, mul_nan_l, add_nan_l.
Qed.

(** After the loop: the outputs keep their lengths, keep what they held
    below the first index of the loop, and hold at each index of the loop
    what [written_at] says. *)
Lemma vectorized_loop (a p e x : list float) (count i0 : nat)
    (out : freq_arrays) l out' :
  for_loop count i0 (KerrGeoCoordinateFrequenciesVectorized_body a p e x) out
  = (l, Return out') ->
  (length (OmegaPhi_ out') = length (OmegaPhi_ out)
   /\ length (OmegaTheta_ out') = length (OmegaTheta_ out)
   /\ length (OmegaR_ out') = length (OmegaR_ out))
  /\ (forall j, (j < i0)%nat ->
        OmegaPhi_ out' !!! j = OmegaPhi_ out !!! j
        /\ OmegaTheta_ out' !!! j = OmegaTheta_ out !!! j
        /\ OmegaR_ out' !!! j = OmegaR_ out !!! j)
  /\ (forall i, (i0 <= i < i0 + count)%nat ->
        (i < length (OmegaPhi_ out))%nat ->
        (i < length (OmegaTheta_ out))%nat ->
        (i < length (OmegaR_ out))%nat ->
        written_at a p e x out' i).
Proof.
  revert i0 out l. induction count as [ | count IH]; intros i0 out l H.
  - injection H as _ <-. repeat split; intros; lia.
  - cbn [for_loop] in H. apply bind_Return_inv in H.
    destruct H as (l1 & out1 & l2 & Hb & Hl & _).
    specialize (IH _ _ _ Hl). destruct IH as ((L1 & L2 & L3) & Hlow & Hat).
    assert (Hbody :
      (length (OmegaPhi_ out1) = length (OmegaPhi_ out)
       /\ length (OmegaTheta_ out1) = length (OmegaTheta_ out)
       /\ length (OmegaR_ out1) = length (OmegaR_ out))
      /\ (forall j, j <> i0 ->
            OmegaPhi_ out1 !!! j = OmegaPhi_ out !!! j
            /\ OmegaTheta_ out1 !!! j = OmegaTheta_ out !!! j
            /\ OmegaR_ out1 !!! j = OmegaR_ out !!! j)
      /\ ((i0 < length (OmegaPhi_ out))%nat ->
          (i0 < length (OmegaTheta_ out))%nat ->
          (i0 < length (OmegaR_ out))%nat ->
          forall out2,
            OmegaPhi_ out2 !!! i0 = OmegaPhi_ out1 !!! i0 ->
            OmegaTheta_ out2 !!! i0 = OmegaTheta_ out1 !!! i0 ->
            OmegaR_ out2 !!! i0 = OmegaR_ out1 !!! i0 ->
            written_at a p e x out2 i0)).
    { unfold KerrGeoCoordinateFrequenciesVectorized_body in Hb.
      unfold written_at.
      destruct (neb (a !!! i0) 0).
      - apply bind_Return_inv in Hb.
        destruct Hb as (l3 & [[oPhi oTheta] oR] & l4 & Hs & Hr & _).
        injection Hr as _ <-. cbn [OmegaPhi_ OmegaTheta_ OmegaR_].
        rewrite !length_insert. split; [tauto | ]. split.
        + intros j Hj. now rewrite !list_lookup_total_insert_ne by congruence.
        + intros H1 H2 H3 out2 -> -> ->.
          rewrite !list_lookup_total_insert_eq by assumption. now exists l3.
      - apply bind_Return_inv in Hb.
        destruct Hb as (l3 & [oPhi oR] & l4 & Hs & Hr & _).
        injection Hr as _ <-. cbn [OmegaPhi_ OmegaTheta_ OmegaR_].
        rewrite !length_insert. split; [tauto | ]. split.
        + intros j Hj. now rewrite !list_lookup_total_insert_ne by congruence.
        + intros H1 H2 H3 out2 -> -> ->.
          rewrite !list_lookup_total_insert_eq by assumption.
          split; [now exists l3 | reflexivity]. }
    destruct Hbody as ((B1 & B2 & B3) & Bne & Bat).
    split; [repeat split; congruence | ]. split.
    + intros j Hj. destruct (Hlow j ltac:(lia)) as (-> & -> & ->).
      apply Bne. lia.
    + intros i Hi H1 H2 H3. destruct (Nat.eq_dec i i0) as [-> | Hne].
      * destruct (Hlow i0 ltac:(lia)) as (E1 & E2 & E3). now apply Bat.
      * apply Hat; [lia | congruence | congruence | congruence].
Qed.

(** C1. For every index [i] below [length] (and within the output arrays),
    the vectorized form has written at index [i] exactly what the scalar
    [KerrGeoCoordinateFrequencies] returns on [(a[i], p[i], e[i], x[i])]
    when [a[i] != 0]; when [a[i]] is zero it has written instead what
    [SchwarzschildGeoCoordinateFrequencies] returns on [(p[i], e[i])], with
    the polar frequency a copy of the azimuthal one. *)
Theorem KerrGeoCoordinateFrequenciesVectorized_spec
    (out : freq_arrays) (a p e x : list float) (length : Z) (i : nat)
    l out' :
  KerrGeoCoordinateFrequenciesVectorized out a p e x length
  = (l, Return out') ->
  (Z.of_nat i < length)%Z ->
  (i < List.length (OmegaPhi_ out))%nat ->
  (i < List.length (OmegaTheta_ out))%nat ->
  (i < List.length (OmegaR_ out))%nat ->
  written_at a p e x out' i.
Proof.
  intros H Hi H1 H2 H3.
  apply vectorized_loop in H. destruct H as (_ & _ & H).
  apply H; [lia | assumption | assumption | assumption].
Qed.

(** C3. For zero spin the vectorized form returns equal polar and azimuthal
    frequencies, exactly, on every orbit, circular equatorial or not: the
    polar one is a copy. *)
Theorem vectorized_zero_spin_theta_eq_phi
    (out : freq_arrays) (a p e x : list float) (length : Z) (i : nat)
    l out' :
  KerrGeoCoordinateFrequenciesVectorized out a p e x length
  = (l, Return out') ->
  (Z.of_nat i < length)%Z ->
  (i < List.length (OmegaPhi_ out))%nat ->
  (i < List.length (OmegaTheta_ out))%nat ->
  (i < List.length (OmegaR_ out))%nat ->
  (a !!! i =? 0) = true ->
  OmegaTheta_ out' !!! i = OmegaPhi_ out' !!! i.
Proof.
  intros H Hi H1 H2 H3 Ha.
  apply vectorized_loop in H. destruct H as (_ & _ & H).
  specialize (H i ltac:(lia) H1 H2 H3). unfold written_at, neb in H.
  rewrite Ha in H. now destruct H.
Qed.

End Frequencies.

(** ** The derivative functions *)

Section Derivatives.
Context {env : Env} {ode : OdeEnv}.

(** C9. For a semi-latus rectum strictly below the separatrix (below
    [6 + 2e] for [SchwarzEccFlux], below [get_separatrix(a, e, x)] for
    [KerrEccentricEquatorial]) the derivative functions set [pdot], [edot]
    and [xdot] to zero and return: the frequencies are left as they were and
    the result does not depend on the frequency engine. *)
Theorem deriv_func_zero_below_separatrix :
  (forall interps out epsilon a p e x,
      (p <? 6 + 2 * e) = true ->
      SchwarzEccFlux.deriv_func interps out epsilon a p e x
      = ([], Return (zeroed out)))
  /\ (forall fuel this out epsilon a p e x l p_sep,
         get_separatrix fuel a e x = (l, Return p_sep) ->
         (p <? p_sep) = true ->
         KerrEccentricEquatorial.deriv_func fuel this out epsilon a p e x
         = (l, Return (zeroed out))).
Proof.
  split.
  - intros interps out epsilon a p e x H.
    unfold SchwarzEccFlux.deriv_func, gtb. now rewrite H.
  - intros fuel this out epsilon a p e x l p_sep Hs H.
    unfold KerrEccentricEquatorial.deriv_func. rewrite Hs. cbn [bind].
    rewrite H, orb_true_r. cbn. now rewrite app_nil_r.
Qed.

End Derivatives.

(** ** The warning of the polar solve *)

Section Warning.
Context {env : Env}.

Lemma bind_OutOfFuel {A B} (c : Comp A) (k : A -> Comp B) :
  snd c = OutOfFuel -> snd (bind c k) = OutOfFuel.
Proof. destruct c as [l [v | ex | ]]; simpl; now try discriminate. Qed.

(** When the polar solve of [get_separatrix(a, e, x)] (with [a] and [e] not
    zero) ends at the iteration cap without success, its warning calls
    [get_separatrix(a, e, r)], which runs the same polar solve again and
    warns again: the call does not return, whatever the fuel. *)
Theorem polar_soft_fail_never_returns (fuel : nat) (a e x : float)
    status r lo hi :
  (a =? 0) = false -> (e =? 0) = false ->
  solver_loop (Z.to_nat max_iter)
    (snd (gsl_root_fsolver_set
            (fun p => separatrix_polynomial_polar p
                        (params_holder.mk a 0 e x 0))
            (1 + sqrt 3 + sqrt (3 + 2 * sqrt 3)) 8)) 0
  = (status, max_iter, r, lo, hi) ->
  status <> GSL_SUCCESS ->
  snd (get_separatrix fuel a e x) = OutOfFuel.
Proof.
  intros Ha He Hl Hst. revert x Hl.
  induction fuel as [ | fuel IH]; intros x Hl; [reflexivity | ].
  specialize (IH r Hl).
  cbn [get_separatrix]. rewrite Ha, He. cbn [andb]. cbv zeta.
  apply bind_OutOfFuel. unfold solver_with.
  destruct (gsl_root_fsolver_set _ _ 8) as [st s]. cbn [snd] in Hl.
  rewrite Hl. apply Z.eqb_neq in Hst. rewrite Hst, Z.eqb_refl. cbn [negb].
  cbn [params_holder.a params_holder.e].
  destruct (get_separatrix fuel a e r) as [l0 res]. cbn [snd] in IH.
  rewrite IH. reflexivity.
Qed.

End Warning.

(** ** Loops *)



(** What every iteration that returns keeps, the loop that returns keeps. *)
Lemma for_loop_invariant {St} (P : St -> Prop) (body : nat -> St -> Comp St)
    (count i0 : nat) (st : St) l st' :
  (forall i st l st',
      (i0 <= i < i0 + count)%nat -> P st -> body i st = (l, Return st') ->
      P st') ->
  P st -> for_loop count i0 body st = (l, Return st') -> P st'.
Proof.
  revert i0 st l. induction count as [ | count IH]; intros i0 st l Hb HP H.
  - injection H as _ <-. assumption.
  - cbn [for_loop] in H. apply bind_Return_inv in H.
    destruct H as (l1 & st1 & l2 & H1 & H2 & _).
    apply (IH (S i0) st1 l2); [ | | assumption].
    + intros i s ls s' Hi. apply Hb. lia.
    + apply (Hb i0 st l1); [lia | assumption | assumption].
Qed.

(** The lines a loop prints when each of its iterations prints [c] lines. *)
Lemma for_loop_log {St} (body : nat -> St -> Comp St) (c count i0 : nat)
    (st : St) l st' :
  (forall i st l st', body i st = (l, Return st') -> length l = c) ->
  for_loop count i0 body st = (l, Return st') -> length l = (count * c)%nat.
Proof.
  intros Hb. revert i0 st l. induction count as [ | count IH]; intros i0 st l H.
  - now injection H as <- _.
  - cbn [for_loop] in H. apply bind_Return_inv in H.
    destruct H as (l1 & st1 & l2 & H1 & H2 & ->).
    rewrite length_app, (Hb _ _ _ _ H1), (IH _ _ _ H2). lia.
Qed.

(** A loop that stores at index [i] what [f i] returns: the array keeps its
    length, the cells outside the range of the loop keep their contents,
    and each cell of the range holds what [f] returned for it. *)
Lemma store_loop (f : nat -> Comp float) (count i0 : nat) (xs : list float)
    l xs' :
  for_loop count i0 (fun i xs => v <- f i ;; ret (<[i := v]> xs)) xs
  = (l, Return xs') ->
  length xs' = length xs
  /\ (forall j, (j < i0 \/ i0 + count <= j)%nat -> xs' !!! j = xs !!! j)
  /\ (forall i, (i0 <= i < i0 + count)%nat -> (i < length xs)%nat ->
        exists l', f i = (l', Return (xs' !!! i))).
Proof.
  revert i0 xs l. induction count as [ | count IH]; intros i0 xs l H.
  - injection H as _ <-. repeat split; intros; lia.
  - cbn [for_loop] in H. apply bind_Return_inv in H.
    destruct H as (l1 & xs1 & l2 & Hb & Hl & _).
    apply bind_Return_inv in Hb. destruct Hb as (l3 & v & l4 & Hf & Hr & _).
    injection Hr as _ <-.
    specialize (IH _ _ _ Hl). rewrite length_insert in IH.
    destruct IH as (L & Hout & Hin). split; [assumption | ]. split.
    + intros j Hj. rewrite Hout by lia.
      apply list_lookup_total_insert_ne. lia.
    + intros i Hi Hlen. destruct (Nat.eq_dec i i0) as [-> | Hne].
      * rewrite Hout by lia.
        rewrite list_lookup_total_insert_eq by assumption. now exists l3.
      * apply Hin; lia.
Qed.

(** ** The vectorized forms *)

Section Vectorized.
Context {env : Env}.

Lemma KerrGeoConstantsOfMotionVectorized_loop (a p e x : list float)
    (count i0 : nat) (out : constants_arrays) :
  exists out',
    for_loop count i0 (KerrGeoConstantsOfMotionVectorized_body a p e x) out
    = ([], Return out')
    /\ (length (E_out out') = length (E_out out)
        /\ length (L_out out') = length (L_out out)
        /\ length (Q_out out') = length (Q_out out))
    /\ (forall i, (i0 <= i < i0 + count)%nat ->
          (i < length (E_out out))%nat -> (i < length (L_out out))%nat ->
          (i < length (Q_out out))%nat ->
          (E_out out' !!! i, L_out out' !!! i, Q_out out' !!! i)
          = KerrGeoConstantsOfMotion (a !!! i) (p !!! i) (e !!! i) (x !!! i))
    /\ (forall j, (j < i0 \/ i0 + count <= j)%nat ->
          E_out out' !!! j = E_out out !!! j
          /\ L_out out' !!! j = L_out out !!! j
          /\ Q_out out' !!! j = Q_out out !!! j).
Proof.
  revert i0 out. induction count as [ | count IH]; intros i0 out.
  - exists out. repeat split; intros; lia.
  - cbn [for_loop]. unfold KerrGeoConstantsOfMotionVectorized_body at 1.
    destruct (KerrGeoConstantsOfMotion _ _ _ _) as [[E L] Q] eqn:HK.
    rewrite bind_ret_l.
    destruct (IH (S i0)
                {| E_out := <[i0 := E]> (E_out out);
                   L_out := <[i0 := L]> (L_out out);
                   Q_out := <[i0 := Q]> (Q_out out) |})
      as (out' & Hrun & (L1 & L2 & L3) & Hin & Hout).
    cbn [E_out L_out Q_out] in *. rewrite !length_insert in *.
    exists out'. split; [assumption | ]. split; [tauto | ]. split.
    + intros i Hi H1 H2 H3. destruct (Nat.eq_dec i i0) as [-> | Hne].
      * destruct (Hout i0 ltac:(lia)) as (-> & -> & ->).
        rewrite !list_lookup_total_insert_eq by assumption. now rewrite HK.
      * apply Hin; [lia | assumption | assumption | assumption].
    + intros j Hj. destruct (Hout j ltac:(lia)) as (-> & -> & ->).
      now rewrite !list_lookup_total_insert_ne by lia.
Qed.

(** [KerrGeoConstantsOfMotionVectorized] returns for every input and prints
    nothing; after it each output array has the length it had, each index
    below [n] (and within the arrays) holds the triple the scalar
    [KerrGeoConstantsOfMotion] gives on [(a[i], p[i], e[i], x[i])], and each
    index from [n] on holds what it held. *)
Theorem KerrGeoConstantsOfMotionVectorized_spec
    (out : constants_arrays) (a p e x : list float) (n : Z) :
  exists out',
    KerrGeoConstantsOfMotionVectorized out a p e x n = ([], Return out')
    /\ (length (E_out out') = length (E_out out)
        /\ length (L_out out') = length (L_out out)
        /\ length (Q_out out') = length (Q_out out))
    /\ (forall i, (Z.of_nat i < n)%Z ->
          (i < length (E_out out))%nat -> (i < length (L_out out))%nat ->
          (i < length (Q_out out))%nat ->
          (E_out out' !!! i, L_out out' !!! i, Q_out out' !!! i)
          = KerrGeoConstantsOfMotion (a !!! i) (p !!! i) (e !!! i) (x !!! i))
    /\ (forall j, (n <= Z.of_nat j)%Z ->
          E_out out' !!! j = E_out out !!! j
          /\ L_out out' !!! j = L_out out !!! j
          /\ Q_out out' !!! j = Q_out out !!! j).
Proof.
  destruct (KerrGeoConstantsOfMotionVectorized_loop a p e x (Z.to_nat n) 0 out)
    as (out' & Hrun & Hlen & Hin & Hout).
  exists out'. split; [exact Hrun | ]. split; [exact Hlen | ]. split.
  - intros i Hi. apply Hin. lia.
  - intros j Hj. apply Hout. lia.
Qed.

(** When [get_separatrix_vector] returns, the array has the length it had,
    each index [i] below [length] (and within the array) holds what
    [get_separatrix(a[i], e[i], x[i])] returned, and each index from
    [length] on holds what it held; a [length] of zero or less changes
    nothing and prints nothing. *)
Theorem get_separatrix_vector_spec (fuel : nat)
    (separatrix a e x : list float) (n : Z) l separatrix' :
  get_separatrix_vector fuel separatrix a e x n = (l, Return separatrix') ->
  length separatrix' = length separatrix
  /\ (forall i, (Z.of_nat i < n)%Z -> (i < length separatrix)%nat ->
        exists l',
          get_separatrix fuel (a !!! i) (e !!! i) (x !!! i)
          = (l', Return (separatrix' !!! i)))
  /\ (forall j, (n <= Z.of_nat j)%Z -> separatrix' !!! j = separatrix !!! j)
  /\ ((n <= 0)%Z -> l = [] /\ separatrix' = separatrix).
Proof.
  intros H. unfold get_separatrix_vector in H. split; [ | split; [ | split]].
  - now apply store_loop in H.
  - intros i Hi Hlen.
    apply (store_loop
             (fun i => get_separatrix fuel (a !!! i) (e !!! i) (x !!! i)))
      in H.
    destruct H as (_ & _ & H). apply H; lia.
  - intros j Hj. apply store_loop in H. destruct H as (_ & H & _).
    apply H. lia.
  - intros Hn. replace (Z.to_nat n) with 0%nat in H by lia.
    now injection H as <- <-.
Qed.


(** When [Y_to_xI_vector] returns, the array [x] has the length it had,
    each index [i] below [length] (and within the array) holds what
    [Y_to_xI(a[i], p[i], e[i], Y[i])] returned, and each index from
    [length] on holds what it held. *)
Theorem Y_to_xI_vector_spec (fuel : nat)
    (x a p e Y : list float) (n : Z) l x' :
  Y_to_xI_vector fuel x a p e Y n = (l, Return x') ->
  length x' = length x
  /\ (forall i, (Z.of_nat i < n)%Z -> (i < length x)%nat ->
        exists l',
          Y_to_xI fuel (a !!! i) (p !!! i) (e !!! i) (Y !!! i)
          = (l', Return (x' !!! i)))
  /\ (forall j, (n <= Z.of_nat j)%Z -> x' !!! j = x !!! j).
Proof.
  intros H. unfold Y_to_xI_vector in H. split; [ | split].
  - now apply store_loop in H.
  - intros i Hi Hlen.
    apply (store_loop
             (fun i => Y_to_xI fuel (a !!! i) (p !!! i) (e !!! i) (Y !!! i)))
      in H.
    destruct H as (_ & _ & H). apply H; lia.
  - intros j Hj. apply store_loop in H. destruct H as (_ & H & _).
    apply H. lia.
Qed.

(** When [KerrGeoCoordinateFrequenciesVectorized] returns, the three output
    arrays have the lengths they had and every index from [length] on holds
    what it held; a [length] of zero or less changes nothing and prints
    nothing. *)
Theorem KerrGeoCoordinateFrequenciesVectorized_frame
    (out : freq_arrays) (a p e x : list float) (n : Z) l out' :
  KerrGeoCoordinateFrequenciesVectorized out a p e x n = (l, Return out') ->
  (length (OmegaPhi_ out') = length (OmegaPhi_ out)
   /\ length (OmegaTheta_ out') = length (OmegaTheta_ out)
   /\ length (OmegaR_ out') = length (OmegaR_ out))
  /\ (forall j, (n <= Z.of_nat j)%Z ->
        OmegaPhi_ out' !!! j = OmegaPhi_ out !!! j
        /\ OmegaTheta_ out' !!! j = OmegaTheta_ out !!! j
        /\ OmegaR_ out' !!! j = OmegaR_ out !!! j)
  /\ ((n <= 0)%Z -> l = [] /\ out' = out).
Proof.
  intros H. unfold KerrGeoCoordinateFrequenciesVectorized in H.
  split; [ | split].
  - now apply vectorized_loop in H.
  - intros j Hj. revert H.
    apply (for_loop_invariant
             (fun o => OmegaPhi_ o !!! j = OmegaPhi_ out !!! j
                       /\ OmegaTheta_ o !!! j = OmegaTheta_ out !!! j
                       /\ OmegaR_ o !!! j = OmegaR_ out !!! j));
      [ | tauto].
    intros i st l1 st' Hi (E1 & E2 & E3) Hb.
    unfold KerrGeoCoordinateFrequenciesVectorized_body in Hb.
    destruct (neb (a !!! i) 0).
    + apply bind_Return_inv in Hb.
      destruct Hb as (l3 & [[oPhi oTheta] oR] & l4 & _ & Hr & _).
      injection Hr as _ <-. cbn [OmegaPhi_ OmegaTheta_ OmegaR_].
      now rewrite !list_lookup_total_insert_ne by lia.
    + apply bind_Return_inv in Hb.
      destruct Hb as (l3 & [oPhi oR] & l4 & _ & Hr & _).
      injection Hr as _ <-. cbn [OmegaPhi_ OmegaTheta_ OmegaR_].
      now rewrite !list_lookup_total_insert_ne by lia.
  - intros Hn. replace (Z.to_nat n) with 0%nat in H by lia.
    now injection H as <- <-.
Qed.


End Vectorized.

(** ** More on the coordinate frequencies *)

Section MoreFrequencies.
Context {env : Env}.

(** On the equatorial branch ([|x| = 1]) how [KerrGeoCoordinateFrequencies]
    ends does not depend on [e] nor on the sign of [x]: an eccentric or a
    retrograde equatorial orbit gets the frequencies (or the exception) of
    the circular prograde orbit with the same [a] and [p]. *)
Theorem KerrGeoCoordinateFrequencies_equatorial (a p e x e' x' : float) :
  (abs x =? 1) = true -> (abs x' =? 1) = true ->
  snd (KerrGeoCoordinateFrequencies a p e x)
  = snd (KerrGeoCoordinateFrequencies a p e' x').
Proof.
  intros Hx Hx'. unfold KerrGeoCoordinateFrequencies. rewrite Hx, Hx'.
  rewrite !bind_ret_l.
  change (KerrEqGeoMinoFrequencies a p e' x')
    with (KerrEqGeoMinoFrequencies a p e x).
  destruct (KerrEqGeoMinoFrequencies a p e x) as [[[G Ph] Th] R].
  now destruct (neb Ph Ph || neb G G || neb R R).
Qed.

(** Off the equatorial branch a NaN among any of the four Mino frequencies
    makes [KerrGeoCoordinateFrequencies] print the tuple and raise. *)
Theorem KerrGeoCoordinateFrequencies_generic_nan_raises (a p e x : float) l
    CapitalGamma CapitalUpsilonPhi CapitalUpsilonTheta CapitalUpsilonR :
  (abs x =? 1) = false ->
  KerrGeoMinoFrequencies a p e x
  = (l, Return (CapitalGamma, CapitalUpsilonPhi, CapitalUpsilonTheta,
                CapitalUpsilonR)) ->
  is_nan CapitalGamma || is_nan CapitalUpsilonPhi
  || is_nan CapitalUpsilonTheta || is_nan CapitalUpsilonR = true ->
  KerrGeoCoordinateFrequencies a p e x
  = (l ++ [printf "(a, p, e, x) = (%f , %f , %f , %f) \n" [a; p; e; x]],
     Throw (invalid_argument "Nan in fundamental frequencies" [])).
Proof.
  intros Hx HM Hn. unfold KerrGeoCoordinateFrequencies. rewrite Hx, HM.
  cbn [bind]. rewrite !neb_self.
  assert (Ht : is_nan CapitalUpsilonTheta = true ->
               is_nan CapitalUpsilonPhi = true)
    by apply (KerrGeoMinoFrequencies_nan_theta _ _ _ _ _ _ _ _ _ HM).
  replace (is_nan CapitalUpsilonPhi || is_nan CapitalGamma
           || is_nan CapitalUpsilonR) with true; [reflexivity | ].
  destruct (is_nan CapitalUpsilonPhi), (is_nan CapitalGamma),
    (is_nan CapitalUpsilonR); try reflexivity.
  destruct (is_nan CapitalUpsilonTheta); [ | discriminate Hn].
  symmetry. now apply Ht.
Qed.

End MoreFrequencies.

(** ** More on the solver and the inclination mapping *)

Lemma sub_nan_l (y : float) : nan - y = nan.
Proof. apply Prim2SF_inj. rewrite FloatAxioms.sub_spec. reflexivity. Qed.

(** The square root of a negative double is a NaN. *)
Lemma sqrt_negative (k : float) : (k <? 0) = true -> sqrt k = nan.
Proof.
  intros H. apply Prim2SF_inj. rewrite FloatAxioms.sqrt_spec.
  rewrite FloatAxioms.ltb_spec in H. unfold SFltb, SFcompare in H.
  destruct (Prim2SF k) as [s | s | | s m ex]; try destruct s;
    try discriminate; reflexivity.
Qed.

Section MoreSolver.
Context {env : Env}.

(** The loop of [solver] runs its body at least once and at most [max_iter]
    = 1000 times, and it ends with the tolerance not met ([GSL_CONTINUE])
    only after the 1000th. *)
Theorem solver_iterations (s : gsl_root_fsolver) status iter r lo hi :
  solver_loop (Z.to_nat max_iter) s 0 = (status, iter, r, lo, hi) ->
  (1 <= iter <= 1000)%Z /\ (status = GSL_CONTINUE -> iter = 1000%Z).
Proof.
  intros Hl.
  pose proof (solver_loop_iter (Z.to_nat max_iter) s 0) as H.
  rewrite Hl in H. unfold max_iter in H.
  destruct H as [H1 H2]; [lia | lia | ]. split; [lia | exact H2].
Qed.

(** A NaN [Y] is not returned as it is: [Y_to_xI] runs the solver over the
    whole bracket [[-0.998, 0.998]], on a function that is a NaN at every
    point. *)
Theorem Y_to_xI_nan (fuel : nat) (a p e Y : float) :
  is_nan Y = true ->
  Y_to_xI fuel a p e Y
  = solver fuel (params_holder.mk a p e 0 Y) Y_to_xI_eq (- YLIM) YLIM
  /\ forall x,
       is_nan (Y_to_xI_eq x (params_holder.mk a p e 0 Y)) = true.
Proof.
  intros H. apply is_nan_eq in H. subst Y. split.
  - unfold Y_to_xI.
    replace (gtb (abs nan) YLIM) with false by reflexivity.
    replace (gtb (nan - 0.15) (- YLIM)) with false by reflexivity.
    replace (nan + 0.15 <? YLIM) with false by reflexivity.
    apply bind_ret_r.
  - intros x. unfold Y_to_xI_eq. cbn [params_holder.Y].
    destruct (KerrGeoConstantsOfMotion _ _ _ _) as [[E L] Q].
    now rewrite sub_nan_l.
Qed.

End MoreSolver.

(** ** The elliptic integrals *)

Section Elliptic.
Context {env : Env} {incomplete : GslIncomplete}.

(** The six wrappers take the parameter [k] of Mathematica's conventions and
    hand [sqrt(k)] to GSL: for a negative [k] what GSL receives as modulus
    is a NaN, whatever [k] is. *)
Theorem Elliptic_negative_parameter (k n phi : float) :
  (k <? 0) = true ->
  EllipticK k
  = (let '(status, val) := gsl_sf_ellint_Kcomp_e nan in
     if (status =? GSL_SUCCESS)%Z then ret val
     else throw (invalid_argument "EllipticK failed with argument k: %e" [k]))
  /\ EllipticE k
     = (let '(status, val) := gsl_sf_ellint_Ecomp_e nan in
        if (status =? GSL_SUCCESS)%Z then ret val
        else
          throw (invalid_argument "EllipticE failed with argument k: %e" [k]))
  /\ EllipticPi n k
     = (let '(status, val) := gsl_sf_ellint_Pcomp_e nan (- n) in
        if (status =? GSL_SUCCESS)%Z then ret val
        else
          print "55: %e\n" [k] ;;;
          throw (invalid_argument
                   "EllipticPi failed with arguments (k,n): (%e,%e)" [k; n]))
  /\ EllipticF phi k
     = (let '(status, val) := gsl_sf_ellint_F_e phi nan in
        if (status =? GSL_SUCCESS)%Z then ret val
        else
          throw (invalid_argument
                   "EllipticF failed with arguments phi:%e k: %e" [phi; k]))
  /\ EllipticEIncomp phi k
     = (let '(status, val) := gsl_sf_ellint_E_e phi nan in
        if (status =? GSL_SUCCESS)%Z then ret val
        else
          throw (invalid_argument
                   "EllipticEIncomp failed with argument k: %e" [k]))
  /\ EllipticPiIncomp n phi k
     = (let '(status, val) := gsl_sf_ellint_P_e phi nan (- n) in
        if (status =? GSL_SUCCESS)%Z then ret val
        else
          throw (invalid_argument
                   "EllipticPiIncomp failed with argument k: %e" [k])).
Proof.
  intros H.
  unfold EllipticK, EllipticE, EllipticPi, EllipticF, EllipticEIncomp,
    EllipticPiIncomp.
  rewrite (sqrt_negative k H). repeat split; reflexivity.
Qed.

End Elliptic.

(** ** More on the derivative functions *)

Section MoreDerivatives.
Context {env : Env} {ode : OdeEnv}.

(** When [SchwarzEccFlux::deriv_func] returns, [xdot] is zero, [edot] is
    zero unless [e > 0], and above the separatrix guard the polar frequency
    is the azimuthal one; and the call is the same whatever the spin [a] and
    the inclination [x] it is given. *)
Theorem SchwarzEccFlux_deriv_func_returns interps (out : deriv_out)
    (epsilon a p e x : float) l out' :
  SchwarzEccFlux.deriv_func interps out epsilon a p e x = (l, Return out') ->
  xdot out' = 0
  /\ (gtb e 0 = false -> edot out' = 0)
  /\ (gtb (6 + 2 * e) p = false -> Omega_theta out' = Omega_phi out')
  /\ (forall a' x',
        SchwarzEccFlux.deriv_func interps out epsilon a' p e x'
        = (l, Return out')).
Proof.
  intros H. split; [ | split; [ | split]]; [ | | | intros a' x'; exact H].
  - unfold SchwarzEccFlux.deriv_func in H. destruct (gtb (6 + 2 * e) p).
    + now injection H as _ <-.
    + apply bind_Return_inv in H.
      destruct H as (l1 & [oPhi oR] & l2 & _ & H & _). cbv zeta in H.
      repeat (apply bind_Return_inv in H;
              destruct H as (? & ? & ? & _ & H & _)).
      now injection H as _ <-.
  - intros He. unfold SchwarzEccFlux.deriv_func in H. rewrite He in H.
    destruct (gtb (6 + 2 * e) p).
    + now injection H as _ <-.
    + apply bind_Return_inv in H.
      destruct H as (l1 & [oPhi oR] & l2 & _ & H & _). cbv zeta in H.
      repeat (apply bind_Return_inv in H;
              destruct H as (? & ? & ? & _ & H & _)).
      now injection H as _ <-.
  - intros Hg. unfold SchwarzEccFlux.deriv_func in H. rewrite Hg in H.
    apply bind_Return_inv in H.
    destruct H as (l1 & [oPhi oR] & l2 & _ & H & _). cbv zeta in H.
    repeat (apply bind_Return_inv in H;
            destruct H as (? & ? & ? & _ & H & _)).
    injection H as _ <-. now destruct (gtb e 0).
Qed.

(** When [KerrEccentricEquatorial::deriv_func] returns, the separatrix
    [get_separatrix(a, e, x)] was evaluated and returned, [xdot] is zero, and
    [edot] is zero unless [e > 1e-6]. *)
Theorem KerrEccentricEquatorial_deriv_func_returns (fuel : nat) this
    (out : deriv_out) (epsilon a p e x : float) l out' :
  KerrEccentricEquatorial.deriv_func fuel this out epsilon a p e x
  = (l, Return out') ->
  (exists l1 p_sep, get_separatrix fuel a e x = (l1, Return p_sep))
  /\ xdot out' = 0
  /\ (gtb e 1e-6 = false -> edot out' = 0).
Proof.
  intros H. unfold KerrEccentricEquatorial.deriv_func in H.
  apply bind_Return_inv in H. destruct H as (l1 & p_sep & l2 & Hs & H & _).
  split; [now exists l1, p_sep | ].
  destruct ((e <? 0) || (p <? p_sep)).
  - injection H as _ <-. split; [reflexivity | ]. reflexivity.
  - apply bind_Return_inv in H.
    destruct H as (l3 & [[oPhi oTheta] oR] & l4 & _ & H & _).
    cbv zeta in H.
    repeat (apply bind_Return_inv in H;
            destruct H as (? & ? & ? & _ & H & _)).
    injection H as _ <-. split; [reflexivity | ].
    intros He. now rewrite He.
Qed.

(** For a negative eccentricity [KerrEccentricEquatorial::deriv_func] zeroes
    the derivative whatever [p] is, but only after [get_separatrix(a, e, x)]
    has been evaluated: what that call prints is printed, and when it throws
    the derivative function throws. *)
Theorem KerrEccentricEquatorial_negative_eccentricity (fuel : nat) this
    (out : deriv_out) (epsilon a p e x : float) :
  (e <? 0) = true ->
  KerrEccentricEquatorial.deriv_func fuel this out epsilon a p e x
  = (p_sep <- get_separatrix fuel a e x ;; ret (zeroed out)).
Proof.
  intros He. unfold KerrEccentricEquatorial.deriv_func.
  apply bind_ext. intros p_sep. now rewrite He.
Qed.

(** Above the separatrix, when the frequency engine returns and the radius
    [r] computed from its azimuthal frequency is a NaN,
    [KerrEccentricEquatorial::deriv_func] prints the orbit and the
    frequencies and throws [std::exception]. *)
Theorem KerrEccentricEquatorial_nan_radius_throws (fuel : nat) this
    (out : deriv_out) (epsilon a p e x : float) l p_sep l'
    Omega_phi Omega_theta Omega_r :
  get_separatrix fuel a e x = (l, Return p_sep) ->
  (e <? 0) || (p <? p_sep) = false ->
  KerrGeoEquatorialCoordinateFrequencies a p e x
  = (l', Return (Omega_phi, Omega_theta, Omega_r)) ->
  is_nan (pow (Omega_phi / (1 / (a + pow (p_sep / (1 + e)) 1.5))) (2 / 3)
          * (1 + e)) = true ->
  KerrEccentricEquatorial.deriv_func fuel this out epsilon a p e x
  = (l ++ l'
     ++ [printf " a =%f\tp=%f\te=%f\tx=%f\t%f plso =%f\n"
                [a; p; e; x;
                 pow (Omega_phi / (1 / (a + pow (p_sep / (1 + e)) 1.5)))
                     (2 / 3) * (1 + e);
                 p_sep];
         printf "omegaphi circ %f omegaphi %f omegar %f\n"
                [1 / (a + pow (p_sep / (1 + e)) 1.5); Omega_phi; Omega_r]],
     Throw std_exception).
Proof.
  intros Hs Hg Hf Hn. unfold KerrEccentricEquatorial.deriv_func.
  rewrite Hs. cbn [bind]. rewrite Hg, Hf. cbn [bind]. cbv zeta.
  unfold isnan. rewrite neb_self, Hn. reflexivity.
Qed.

End MoreDerivatives.

(** ** Secondary spin *)

Lemma bind_print {A} (fmt : string) (args : list float) (k : unit -> Comp A) :
  bind (print fmt args) k = (printf fmt args :: fst (k tt), snd (k tt)).
Proof. unfold print. cbn [bind]. now destruct (k tt). Qed.

(** In a loop whose iteration [i] establishes [Q i] and keeps [Q j] for
    every other [j], each index of the range has its [Q] at the end. *)
Lemma for_loop_pointwise {St} (Q : nat -> St -> Prop)
    (body : nat -> St -> Comp St) (count i0 : nat) (st : St) l st' :
  (forall i st l st', body i st = (l, Return st') -> Q i st') ->
  (forall i j st l st',
      i <> j -> body i st = (l, Return st') -> Q j st -> Q j st') ->
  for_loop count i0 body st = (l, Return st') ->
  forall i, (i0 <= i < i0 + count)%nat -> Q i st'.
Proof.
  intros Hest Hkeep. revert i0 st l.
  induction count as [ | count IH]; intros i0 st l H i Hi; [lia | ].
  cbn [for_loop] in H. apply bind_Return_inv in H.
  destruct H as (l1 & st1 & l2 & H1 & H2 & _).
  destruct (Nat.eq_dec i i0) as [-> | Hne].
  - revert H2. apply for_loop_invariant; [ | now apply (Hest _ _ _ _ H1)].
    intros j s ls s' Hj HQ Hb. apply (Hkeep j i0 s ls s'); [lia | easy | easy].
  - apply (IH _ _ _ H2). lia.
Qed.

Section SpinTheorems.
Context {env : Env}.

Lemma EllipticK_outcome (k : float) :
  (exists v, EllipticK k = ret v)
  \/ EllipticK k
     = throw (invalid_argument "EllipticK failed with argument k: %e" [k]).
Proof.
  unfold EllipticK. destruct (gsl_sf_ellint_Kcomp_e (sqrt k)) as [status v].
  destruct (status =? GSL_SUCCESS)%Z; [left; now exists v | now right].
Qed.

Lemma EllipticE_outcome (k : float) :
  (exists v, EllipticE k = ret v)
  \/ EllipticE k
     = throw (invalid_argument "EllipticE failed with argument k: %e" [k]).
Proof.
  unfold EllipticE. destruct (gsl_sf_ellint_Ecomp_e (sqrt k)) as [status v].
  destruct (status =? GSL_SUCCESS)%Z; [left; now exists v | now right].
Qed.

Lemma EllipticPi_outcome (n k : float) :
  (exists v, EllipticPi n k = ret v)
  \/ EllipticPi n k
     = ([printf "55: %e\n" [k]],
        Throw (invalid_argument
                 "EllipticPi failed with arguments (k,n): (%e,%e)" [k; n])).
Proof.
  unfold EllipticPi.
  destruct (gsl_sf_ellint_Pcomp_e (sqrt k) (- n)) as [status v].
  destruct (status =? GSL_SUCCESS)%Z; [left; now exists v | now right].
Qed.

(** The five elliptic integrals of the correction, evaluated in the order
    of the text: all five return, or the first that fails throws and the
    rest of the function is not run. *)
Lemma elliptic_chain {A} (Q : Comp A -> Prop) (kr hr hm hp : float)
    (k : float -> float -> float -> float -> float -> Comp A) :
  (forall Kkr Ekr Pihrkr Pihmkr Pihpkr, Q (k Kkr Ekr Pihrkr Pihmkr Pihpkr)) ->
  (forall l what args,
      l = [] \/ l = [printf "55: %e\n" [kr]] ->
      Q (l, Throw (invalid_argument what args))) ->
  Q (Kkr <- EllipticK kr ;; Ekr <- EllipticE kr ;;
     Pihrkr <- EllipticPi hr kr ;; Pihmkr <- EllipticPi hm kr ;;
     Pihpkr <- EllipticPi hp kr ;; k Kkr Ekr Pihrkr Pihmkr Pihpkr).
Proof.
  intros Hret Hthrow.
  destruct (EllipticK_outcome kr) as [[v1 ->] | ->];
    [rewrite bind_ret_l | apply Hthrow; now left].
  destruct (EllipticE_outcome kr) as [[v2 ->] | ->];
    [rewrite bind_ret_l | apply Hthrow; now left].
  destruct (EllipticPi_outcome hr kr) as [[v3 ->] | ->];
    [rewrite bind_ret_l | apply Hthrow; now right].
  destruct (EllipticPi_outcome hm kr) as [[v4 ->] | ->];
    [rewrite bind_ret_l | apply Hthrow; now right].
  destruct (EllipticPi_outcome hp kr) as [[v5 ->] | ->];
    [rewrite bind_ret_l | apply Hthrow; now right].
  apply Hret.
Qed.

(** Names the value of each [let] at the head of the computation the goal
    is about. *)
Ltac name_lets :=
  repeat
    lazymatch goal with
    | |- ?Q (let x := ?v in @?b x) =>
        let y := fresh x in
        pose (y := v); change (Q (b y)); cbv beta
    end.

(** How a call of the correction ends. *)
Lemma KerrEqSpinFrequenciesCorrection_cases (a p e x : float) :
  (exists deltaOmegaR deltaOmegaPhi,
      SecondarySpin.KerrEqSpinFrequenciesCorrection a p e x
      = ([printf "a, p, e, x, sep = %f %f %f %f\n" [a; p; e; x];
          printf "deltaOmegaR_, deltaOmegaPhi_, = %f %f\n"
                 [deltaOmegaR; deltaOmegaPhi]],
         Return (deltaOmegaR, deltaOmegaPhi)))
  \/ (exists l what args,
        SecondarySpin.KerrEqSpinFrequenciesCorrection a p e x
        = (printf "a, p, e, x, sep = %f %f %f %f\n" [a; p; e; x] :: l,
           Throw (invalid_argument what args))
        /\ (l = [] \/ exists k, l = [printf "55: %e\n" [k]])).
Proof.
  cbv beta delta [SecondarySpin.KerrEqSpinFrequenciesCorrection].
  lazymatch goal with
  | |- (exists dR dPhi, bind _ (fun _ => ?c) = _) \/ _ => pattern c
  end.
  lazymatch goal with |- ?Q _ => set (ends := Q) end.
  name_lets.
  destruct (KerrGeoRadialRoots a p e x En 0) as [[[r1 r2] r3] r4].
  name_lets.
  refine (elliptic_chain ends kr hr hm hp _ _ _).
  - intros Kkr Ekr Pihrkr Pihmkr Pihpkr. name_lets.
    subst ends. cbv beta. left. exists deltaOmegaR, deltaOmegaPhi.
    reflexivity.
  - intros l what args Hl. subst ends. cbv beta. right.
    exists l, what, args. split; [reflexivity | ].
    destruct Hl as [Hl | Hl]; [now left | right; eexists; exact Hl].
Qed.

(** Every call of [KerrEqSpinFrequenciesCorrection] prints its input first.
    When it returns it has printed exactly one more line, the two values it
    returns; otherwise it throws the [invalid_argument] of one of its
    elliptic integrals, after at most the line [EllipticPi] prints. *)
Theorem KerrEqSpinFrequenciesCorrection_prints (a p e x : float) :
  exists l r,
    SecondarySpin.KerrEqSpinFrequenciesCorrection a p e x
    = (printf "a, p, e, x, sep = %f %f %f %f\n" [a; p; e; x] :: l, r)
    /\ match r with
       | Return (deltaOmegaR, deltaOmegaPhi) =>
           l = [printf "deltaOmegaR_, deltaOmegaPhi_, = %f %f\n"
                       [deltaOmegaR; deltaOmegaPhi]]
       | Throw (invalid_argument _ _) =>
           l = [] \/ exists k, l = [printf "55: %e\n" [k]]
       | Throw std_exception => False
       | OutOfFuel => False
       end.
Proof.
  destruct (KerrEqSpinFrequenciesCorrection_cases a p e x)
    as [(dR & dPhi & H) | (l & what & args & H & Hl)]; rewrite H.
  - now eexists _, _.
  - now eexists _, _.
Qed.

(** When [KerrEqSpinFrequenciesCorrVectorized] returns, [OmegaTheta_] is
    what it was (the function never writes it), two lines were printed for
    each element, [OmegaPhi_] and [OmegaR_] have their lengths, each index
    [i] below [length] holds in [OmegaR_] and [OmegaPhi_] the pair
    [KerrEqSpinFrequenciesCorrection] returned on
    [(a[i], p[i], e[i], x[i])], and each index from [length] on holds what
    it held. *)
Theorem KerrEqSpinFrequenciesCorrVectorized_spec
    (out : freq_arrays) (a p e x : list float) (n : Z) l out' :
  SecondarySpin.KerrEqSpinFrequenciesCorrVectorized out a p e x n
  = (l, Return out') ->
  OmegaTheta_ out' = OmegaTheta_ out
  /\ length l = (2 * Z.to_nat n)%nat
  /\ (length (OmegaPhi_ out') = length (OmegaPhi_ out)
      /\ length (OmegaR_ out') = length (OmegaR_ out))
  /\ (forall i, (Z.of_nat i < n)%Z ->
        (i < length (OmegaPhi_ out))%nat -> (i < length (OmegaR_ out))%nat ->
        exists l',
          SecondarySpin.KerrEqSpinFrequenciesCorrection
            (a !!! i) (p !!! i) (e !!! i) (x !!! i)
          = (l', Return (OmegaR_ out' !!! i, OmegaPhi_ out' !!! i)))
  /\ (forall j, (n <= Z.of_nat j)%Z ->
        OmegaPhi_ out' !!! j = OmegaPhi_ out !!! j
        /\ OmegaR_ out' !!! j = OmegaR_ out !!! j).
Proof.
  intros H. unfold SecondarySpin.KerrEqSpinFrequenciesCorrVectorized in H.
  assert (Hbody : forall i st l st',
    SecondarySpin.KerrEqSpinFrequenciesCorrVectorized_body a p e x i st
    = (l, Return st') ->
    exists dR dPhi,
      SecondarySpin.KerrEqSpinFrequenciesCorrection
        (a !!! i) (p !!! i) (e !!! i) (x !!! i)
      = (l, Return (dR, dPhi))
      /\ st' = {| OmegaPhi_ := <[i := dPhi]> (OmegaPhi_ st);
                  OmegaTheta_ := OmegaTheta_ st;
                  OmegaR_ := <[i := dR]> (OmegaR_ st) |}).
  { intros i st l0 st' Hb.
    unfold SecondarySpin.KerrEqSpinFrequenciesCorrVectorized_body in Hb.
    apply bind_Return_inv in Hb.
    destruct Hb as (l1 & [dR dPhi] & l2 & Hc & Hr & ->).
    injection Hr as <- <-. rewrite app_nil_r. now exists dR, dPhi. }
  assert (Hlen :
    OmegaTheta_ out' = OmegaTheta_ out
    /\ length (OmegaPhi_ out') = length (OmegaPhi_ out)
    /\ length (OmegaR_ out') = length (OmegaR_ out)).
  { revert H.
    apply (for_loop_invariant
             (fun o => OmegaTheta_ o = OmegaTheta_ out
                       /\ length (OmegaPhi_ o) = length (OmegaPhi_ out)
                       /\ length (OmegaR_ o) = length (OmegaR_ out)));
      [ | tauto].
    intros i st l0 st' _ (E1 & E2 & E3) Hb.
    destruct (Hbody _ _ _ _ Hb) as (dR & dPhi & _ & ->).
    cbn [OmegaPhi_ OmegaTheta_ OmegaR_]. now rewrite !length_insert. }
  destruct Hlen as (HT & L1 & L2).
  split; [exact HT | ]. split; [ | split; [tauto | split]].
  - assert (Hlog : forall i st l st',
      SecondarySpin.KerrEqSpinFrequenciesCorrVectorized_body a p e x i st
      = (l, Return st') -> length l = 2%nat).
    { intros i st l0 st' Hb.
      destruct (Hbody _ _ _ _ Hb) as (dR & dPhi & Hc & _).
      destruct (KerrEqSpinFrequenciesCorrection_cases
                  (a !!! i) (p !!! i) (e !!! i) (x !!! i))
        as [(dR' & dPhi' & Hc') | (l' & what & args & Hc' & _)];
        rewrite Hc' in Hc; [now injection Hc as <- _ _ | discriminate Hc]. }
    rewrite (for_loop_log _ 2 _ _ _ _ _ Hlog H). lia.
  - intros i Hi H1 H2. rewrite <- L1 in H1. rewrite <- L2 in H2.
    revert H1 H2.
    assert (Hi' : (0 <= i < 0 + Z.to_nat n)%nat) by lia.
    clear Hi. revert i Hi'. revert H.
    apply (for_loop_pointwise
             (fun i o =>
                (i < length (OmegaPhi_ o))%nat ->
                (i < length (OmegaR_ o))%nat ->
                exists l',
                  SecondarySpin.KerrEqSpinFrequenciesCorrection
                    (a !!! i) (p !!! i) (e !!! i) (x !!! i)
                  = (l', Return (OmegaR_ o !!! i, OmegaPhi_ o !!! i)))).
    + intros i0 st l0 st' Hb.
      destruct (Hbody _ _ _ _ Hb) as (dR & dPhi & Hc & ->).
      cbn [OmegaPhi_ OmegaR_]. rewrite !length_insert. intros H1 H2.
      rewrite !list_lookup_total_insert_eq by assumption. now exists l0.
    + intros i0 j st l0 st' Hne Hb HQ.
      destruct (Hbody _ _ _ _ Hb) as (dR & dPhi & _ & ->).
      cbn [OmegaPhi_ OmegaR_]. rewrite !length_insert.
      now rewrite !list_lookup_total_insert_ne by assumption.
  - intros j Hj. revert H.
    apply (for_loop_invariant
             (fun o => OmegaPhi_ o !!! j = OmegaPhi_ out !!! j
                       /\ OmegaR_ o !!! j = OmegaR_ out !!! j));
      [ | tauto].
    intros i st l0 st' Hi (E1 & E2) Hb.
    destruct (Hbody _ _ _ _ Hb) as (dR & dPhi & _ & ->).
    cbn [OmegaPhi_ OmegaR_].
    now rewrite !list_lookup_total_insert_ne by lia.
Qed.

End SpinTheorems.

(** ** What the frequencies print *)

Section Quiet.
Context {env : Env}.

Lemma EllipticK_quiet (k : float) l v : EllipticK k = (l, Return v) -> l = [].
Proof.
  destruct (EllipticK_outcome k) as [[w ->] | ->]; [ | discriminate].
  now intros [= <- _].
Qed.

Lemma EllipticE_quiet (k : float) l v : EllipticE k = (l, Return v) -> l = [].
Proof.
  destruct (EllipticE_outcome k) as [[w ->] | ->]; [ | discriminate].
  now intros [= <- _].
Qed.

Lemma EllipticPi_quiet (n k : float) l v :
  EllipticPi n k = (l, Return v) -> l = [].
Proof.
  destruct (EllipticPi_outcome n k) as [[w ->] | ->]; [ | discriminate].
  now intros [= <- _].
Qed.

(** One call of an elliptic integral that returned, in a sequence [H] that
    returned: it printed nothing. *)
Ltac quiet_call H :=
  let l1 := fresh "l" in
  let v := fresh "v" in
  let l2 := fresh "l" in
  let Hc := fresh "Hc" in
  apply bind_Return_inv in H;
  destruct H as (l1 & v & l2 & Hc & H & ->);
  first [apply EllipticK_quiet in Hc
        | apply EllipticE_quiet in Hc
        | apply EllipticPi_quiet in Hc];
  subst l1; cbn [app].

Lemma KerrGeoMinoFrequencies_quiet (a p e x : float) l v :
  KerrGeoMinoFrequencies a p e x = (l, Return v) -> l = [].
Proof.
  unfold KerrGeoMinoFrequencies.
  destruct (KerrGeoRadialRoots _ _ _ _ _ _) as [[[r1 r2] r3] r4].
  intros H. do 8 quiet_call H. now injection H as <- _.
Qed.

Lemma SchwarzschildGeoCoordinateFrequencies_quiet (p e : float) l v :
  SchwarzschildGeoCoordinateFrequencies p e = (l, Return v) -> l = [].
Proof.
  unfold SchwarzschildGeoCoordinateFrequencies.
  intros H. do 4 quiet_call H. now injection H as <- _.
Qed.

Lemma KerrGeoCoordinateFrequencies_quiet (a p e x : float) l v :
  KerrGeoCoordinateFrequencies a p e x = (l, Return v) -> l = [].
Proof.
  unfold KerrGeoCoordinateFrequencies. intros H.
  apply bind_Return_inv in H.
  destruct H as (l1 & [[[G Ph] Th] R] & l2 & Hc & H & ->).
  assert (l1 = []) as ->.
  { destruct (abs x =? 1).
    - now injection Hc as <- _.
    - now apply KerrGeoMinoFrequencies_quiet in Hc. }
  destruct (neb Ph Ph || neb G G || neb R R).
  - apply bind_Return_inv in H. destruct H as (? & ? & ? & _ & H & _).
    discriminate H.
  - now injection H as <- _.
Qed.

(** A call of the frequencies that returns has printed nothing: the scalar
    Kerr and Schwarzschild forms, and the vectorized form for a batch of any
    length.  (The tuple and the line of [EllipticPi] are printed only on the
    way to an exception.) *)
Theorem frequencies_return_quietly :
  (forall a p e x l v,
      KerrGeoCoordinateFrequencies a p e x = (l, Return v) -> l = [])
  /\ (forall p e l v,
        SchwarzschildGeoCoordinateFrequencies p e = (l, Return v) -> l = [])
  /\ (forall out a p e x n l out',
        KerrGeoCoordinateFrequenciesVectorized out a p e x n
        = (l, Return out') ->
        l = []).
Proof.
  split; [exact KerrGeoCoordinateFrequencies_quiet | ].
  split; [exact SchwarzschildGeoCoordinateFrequencies_quiet | ].
  intros out a p e x n l out' H.
  unfold KerrGeoCoordinateFrequenciesVectorized in H.
  assert (Hbody : forall i st l st',
    KerrGeoCoordinateFrequenciesVectorized_body a p e x i st
    = (l, Return st') -> length l = 0%nat).
  { intros i st l0 st' Hb.
    unfold KerrGeoCoordinateFrequenciesVectorized_body in Hb.
    destruct (neb (a !!! i) 0).
    - apply bind_Return_inv in Hb.
      destruct Hb as (l1 & [[oPhi oTheta] oR] & l2 & Hc & Hr & ->).
      apply KerrGeoCoordinateFrequencies_quiet in Hc.
      now injection Hr as <- _; subst l1.
    - apply bind_Return_inv in Hb.
      destruct Hb as (l1 & [oPhi oR] & l2 & Hc & Hr & ->).
      apply SchwarzschildGeoCoordinateFrequencies_quiet in Hc.
      now injection Hr as <- _; subst l1. }
  apply length_zero_iff_nil.
  rewrite (for_loop_log _ 0 _ _ _ _ _ Hbody H). lia.
Qed.

End Quiet.

(** ** pn5 *)

Section Pn5Theorems.
Context {env : Env} {ode : OdeEnv} {series : Pn5Env}.

(** [pn5] takes its frequencies from the equatorial engine at [x = Y] when
    [|Y| = 1], and, in the band [0.998 < |Y| < 1], from
    [KerrGeoCoordinateFrequencies] at [x = Y] with no root solve; in both
    cases, when the frequencies return, all six outputs are overwritten, the
    derivatives with [epsilon] times the 5PN series at orders (10, 10),
    (10, 8) and (7, 10), whatever the outputs held. *)
Theorem pn5_near_equatorial (fuel : nat) (out : deriv_out)
    (epsilon a p e Y : float) :
  gtb (abs Y) YLIM = true ->
  pn5 fuel out epsilon a p e Y
  = ('(Omega_phi, Omega_theta, Omega_r)
       <- (if abs Y =? 1
           then KerrGeoEquatorialCoordinateFrequencies a p e Y
           else KerrGeoCoordinateFrequencies a p e Y) ;;
     ret {| pdot := epsilon * dpdt8H_5PNe10 a p e Y 10 10;
            edot := epsilon * dedt8H_5PNe10 a p e Y 10 8;
            xdot := epsilon * dYdt8H_5PNe10 a p e Y 7 10;
            Omega_phi := Omega_phi;
            Omega_theta := Omega_theta;
            Omega_r := Omega_r |}).
Proof.
  intros HY. unfold pn5, Y_to_xI. rewrite HY.
  destruct (abs Y =? 1); [reflexivity | ].
  now rewrite bind_ret_l.
Qed.

End Pn5Theorems.

(** ** Evaluations in the example environment *)

#[local] Existing Instance Example.env.
#[local] Existing Instance Example.probe.

(** C2. At [a = p = 0x1.fffffffffffffp-1] (the largest double below 1),
    [e = 0], [x = 1], the Mino frequencies are [CapitalGamma = +inf],
    [CapitalUpsilonPhi = +inf], [CapitalUpsilonTheta = NaN] (the square
    root of a negative number over zero) and a finite [CapitalUpsilonR]:
    one of the four is a NaN, and [KerrGeoCoordinateFrequencies] prints
    nothing, does not raise, and returns [(NaN, NaN, 0)]. *)
Theorem KerrGeoCoordinateFrequencies_nan_theta_returns :
  @MinoFrequencies Example.env Example.below_one Example.below_one 0 1
  = ([], Return (infinity, infinity, nan, 0x1.fffffffffffffp+0))
  /\ @KerrGeoCoordinateFrequencies Example.env
       Example.below_one Example.below_one 0 1
     = ([], Return (nan, nan, 0)).
Proof. split; vm_compute; reflexivity. Qed.

(** C1, refuted as stated: at [(a, p, e, x) = (0, 4, 0, 1)] the scalar form
    raises (its [CapitalUpsilonR] is a NaN) while the vectorized form takes
    the Schwarzschild path and writes NaNs. *)
Lemma batch_differs_from_scalar_at_zero_spin :
  ~ @batch_equals_scalar Example.env.
Proof.
  intros H.
  destruct (H Example.cell [0] [4] [0] [1] 1%nat 0%nat [] Example.cell_written
              eq_refl eq_refl eq_refl eq_refl eq_refl eq_refl eq_refl
              ltac:(vm_compute; reflexivity) ltac:(lia)) as [l' H'].
  vm_compute in H'. discriminate H'.
Qed.

(** On the Schwarzschild orbit [p = 16], [e = 0.5], [x = 1] both forms
    return, with different values: the scalar form evaluates the equatorial
    closed form, in which [e] does not occur, the vectorized form the
    Schwarzschild frequencies of the eccentric orbit. *)
Lemma batch_differs_from_scalar_on_eccentric_orbit :
  @KerrGeoCoordinateFrequencies Example.env 0 16 0.5 1
  = ([], Return (0.015625, 0.015625, 0.012352647110032731))
  /\ @KerrGeoCoordinateFrequenciesVectorized Example.env Example.cell
       [0] [16] [0.5] [1] 1
     = ([], Return {| OmegaPhi_ := [0.010772431474504627];
                      OmegaTheta_ := [0.010772431474504627];
                      OmegaR_ := [0.008500328967152939] |}).
Proof. split; vm_compute; reflexivity. Qed.

Lemma KerrGeoCoordinateFrequenciesVectorized_spec_witness :
  @written_at Example.env Example.spins Example.ps Example.es Example.xs
    Example.written 0.
Proof.
  apply (@KerrGeoCoordinateFrequenciesVectorized_spec Example.env
           Example.buffers Example.spins Example.ps Example.es Example.xs
           2 0 [] Example.written).
  - vm_compute. reflexivity.
  - lia.
  - simpl. lia.
  - simpl. lia.
  - simpl. lia.
Defined.

(** C3, refuted as stated: at spin 0.5, [p = 16], [e = 0], [x = 1] the polar
    and the azimuthal frequency differ. *)
Lemma theta_differs_from_phi_at_nonzero_spin :
  ~ @circular_equatorial_theta_eq_phi Example.env.
Proof.
  intros H.
  specialize (H 0.5 16 1 [] 0.015503875968992248 0.015282761914328976
                0.012827715402009424 eq_refl eq_refl eq_refl
                ltac:(vm_compute; reflexivity)).
  assert (E : (0.015282761914328976 =? 0.015503875968992248) = true)
    by (rewrite H; reflexivity).
  vm_compute in E. discriminate E.
Qed.

Lemma vectorized_zero_spin_theta_eq_phi_witness :
  OmegaTheta_ Example.written !!! 1%nat = OmegaPhi_ Example.written !!! 1%nat.
Proof.
  apply (@vectorized_zero_spin_theta_eq_phi Example.env
           Example.buffers Example.spins Example.ps Example.es Example.xs
           2 1 [] Example.written).
  - vm_compute. reflexivity.
  - lia.
  - simpl. lia.
  - simpl. lia.
  - simpl. lia.
  - reflexivity.
Defined.

Lemma get_separatrix_staged_witness :
  @get_separatrix Example.env 2 0.5 0.2 0.5 =
    (polar_p_sep <- @solver Example.env 1 (params_holder.mk 0.5 0 0.2 0.5 0)
                      separatrix_polynomial_polar
                      (1 + sqrt 3 + sqrt (3 + 2 * sqrt 3)) 8 ;;
     equat_p_sep <- @solver Example.env 1 (params_holder.mk 0.5 0 0.2 0.5 0)
                      separatrix_polynomial_equat (1 + 0.2) (6 + 2 * 0.2) ;;
     @solver Example.env 1 (params_holder.mk 0.5 0 0.2 0.5 0)
       separatrix_polynomial_full equat_p_sep polar_p_sep).
Proof.
  exact (proj1 (proj2 (@get_separatrix_staged Example.env 1 0.5 0.2 0.5
                         eq_refl eq_refl eq_refl)) eq_refl).
Defined.

(** C9, refuted as stated: at [p] equal to the separatrix
    ([a = 0], [e = 0.5], [p = 7 = 6 + 2e]) [KerrEccentricEquatorial]'s
    derivative function goes on to call the frequency engine. *)
Lemma derivative_not_zeroed_at_separatrix :
  ~ @zero_at_or_below_separatrix Example.env Example.probe.
Proof.
  intros [_ HK].
  specialize (HK 1%nat
    {| KerrEccentricEquatorial.edot_interp := tt;
       KerrEccentricEquatorial.pdot_interp := tt;
       KerrEccentricEquatorial.Edot_interp := tt;
       KerrEccentricEquatorial.Ldot_interp := tt |}
    Example.before 1 0 7 0.5 1 [] 7 eq_refl eq_refl).
  vm_compute in HK. discriminate HK.
Qed.

(** At the same orbit [SchwarzEccFlux]'s derivative function calls the
    Schwarzschild frequencies, whose first elliptic integral has modulus 1. *)
Lemma SchwarzEccFlux_not_zeroed_at_separatrix :
  @SchwarzEccFlux.deriv_func Example.env Example.probe
    {| SchwarzEccFlux.Edot := tt; SchwarzEccFlux.Ldot := tt |}
    Example.before 1 0 7 0.5 1
  = ([], Throw (invalid_argument "EllipticE failed with argument k: %e" [1])).
Proof. vm_compute. reflexivity. Qed.

Lemma deriv_func_zero_below_separatrix_witness :
  @SchwarzEccFlux.deriv_func Example.env Example.probe
    {| SchwarzEccFlux.Edot := tt; SchwarzEccFlux.Ldot := tt |}
    Example.before 1 0 6.5 0.5 1
  = ([], Return (zeroed Example.before))
  /\ @KerrEccentricEquatorial.deriv_func Example.env Example.probe 1%nat
       {| KerrEccentricEquatorial.edot_interp := tt;
          KerrEccentricEquatorial.pdot_interp := tt;
          KerrEccentricEquatorial.Edot_interp := tt;
          KerrEccentricEquatorial.Ldot_interp := tt |}
       Example.before 1 0 6.5 0.5 1
     = ([], Return (zeroed Example.before)).
Proof.
  split.
  - apply (proj1 (@deriv_func_zero_below_separatrix Example.env Example.probe)).
    reflexivity.
  - apply (proj2 (@deriv_func_zero_below_separatrix Example.env Example.probe)
             1%nat _ _ 1 0 6.5 0.5 1 [] 7); reflexivity.
Defined.

(** ** Further evaluations of the solver *)

(** The brackets of two solves that contain no sign change: the polar
    polynomial of spin 0.5 and eccentricity 0.2 is positive at 7 and at 8,
    and the function of [Y_to_xI(0.5, 2, 0.2, 0.5)] is a NaN at both ends
    0.35 and 0.65 of its bracket. *)
Lemma brackets_without_sign_change :
  (0 <? separatrix_polynomial_polar 7 Example.polar_params) = true
  /\ (0 <? separatrix_polynomial_polar 8 Example.polar_params) = true
  /\ is_nan (Y_to_xI_eq (0.5 - 0.15) (params_holder.mk 0.5 2 0.2 0 0.5))
     = true
  /\ is_nan (Y_to_xI_eq (0.5 + 0.15) (params_holder.mk 0.5 2 0.2 0 0.5))
     = true.
Proof. repeat split; vm_compute; reflexivity. Qed.

Lemma solver_soft_fail_witness :
  @solver_with Example.never_converges (fun _ _ _ => ret 7)
    Example.polar_params separatrix_polynomial_polar Example.polar_lo 8
  = ([printf "WARNING: Maximum iteration reached in Utility.cc in Brent root solver.\n" [];
      printf "Result=%f, x_low=%f, x_high=%f \n"
             [6.2283191029904543; 6.2283191029904543; 6.2283191029904552]]
     ++ [] ++
     [printf "a, p, e, Y, sep = %f %f %f %f %f\n" [0.5; 0; 0.2; 0; 7]],
     Return 6.2283191029904543).
Proof.
  apply (@solver_soft_fail Example.never_converges (fun _ _ _ => ret 7)
           Example.polar_params separatrix_polynomial_polar
           Example.polar_lo 8 1000).
  - vm_compute. reflexivity.
  - reflexivity.
Defined.

Lemma solver_hard_fail_witness :
  @solver_with Example.env (fun _ _ _ => ret 7)
    Example.polar_params separatrix_polynomial_polar 8 7
  = ([], Throw (invalid_argument "In Utility.cc Brent root solver failed" [])).
Proof.
  apply (@solver_hard_fail Example.env (fun _ _ _ => ret 7)
           Example.polar_params separatrix_polynomial_polar 8 7
           Example.GSL_EINVAL 1 7.25 7.5 7).
  - vm_compute. reflexivity.
  - discriminate.
  - discriminate.
Defined.

Lemma polar_soft_fail_never_returns_witness :
  snd (@get_separatrix Example.never_converges 3 0.5 0.2 0.5) = OutOfFuel.
Proof.
  apply (@polar_soft_fail_never_returns Example.never_converges 3 0.5 0.2 0.5
           GSL_CONTINUE 6.2283191029904543 6.2283191029904543
           6.2283191029904552).
  - reflexivity.
  - reflexivity.
  - vm_compute. reflexivity.
  - discriminate.
Defined.

Lemma KerrGeoCoordinateFrequencies_outcome_witness :
  @KerrGeoCoordinateFrequencies Example.env 0 4 0 1
  = ([] ++ [printf "(a, p, e, x) = (%f , %f , %f , %f) \n" [0; 4; 0; 1]],
     Throw (invalid_argument "Nan in fundamental frequencies" [])).
Proof.
  exact (@KerrGeoCoordinateFrequencies_outcome Example.env 0 4 0 1 []
           32 4 4 nan ltac:(vm_compute; reflexivity)).
Defined.

(** ** Runs of the vectorized forms, the solver and the secondary spin *)

Lemma KerrGeoConstantsOfMotionVectorized_spec_witness :
  exists out',
    @KerrGeoConstantsOfMotionVectorized Example.env Orbits.constants_cell
      [0.5] [16] [0.5] [0.5] 1
    = ([], Return out')
    /\ (E_out out' !!! 0%nat, L_out out' !!! 0%nat, Q_out out' !!! 0%nat)
       = @KerrGeoConstantsOfMotion Example.env 0.5 16 0.5 0.5.
Proof.
  destruct (@KerrGeoConstantsOfMotionVectorized_spec Example.env
              Orbits.constants_cell [0.5] [16] [0.5] [0.5] 1)
    as (out' & H & _ & Hi & _).
  exists out'. split; [exact H | ].
  apply (Hi 0%nat); [lia | simpl; lia | simpl; lia | simpl; lia].
Defined.

Lemma get_separatrix_vector_spec_witness :
  length Orbits.separatrices = 3%nat
  /\ (forall i, (Z.of_nat i < 2)%Z -> (i < 3)%nat ->
        exists l',
          @get_separatrix Example.env 2
            ([0; 0.5] !!! i) ([0.5; 0.2] !!! i) ([1; 0] !!! i)
          = (l', Return (Orbits.separatrices !!! i)))
  /\ (forall j, (2 <= Z.of_nat j)%Z ->
        Orbits.separatrices !!! j = [0; 0; 0] !!! j)
  /\ ((2 <= 0)%Z -> @nil event = [] /\ Orbits.separatrices = [0; 0; 0]).
Proof.
  apply (@get_separatrix_vector_spec Example.env 2 [0; 0; 0]
           [0; 0.5] [0.5; 0.2] [1; 0] 2 [] Orbits.separatrices).
  vm_compute. reflexivity.
Defined.


Lemma Y_to_xI_vector_spec_witness :
  length Orbits.inclinations = 3%nat
  /\ (forall i, (Z.of_nat i < 2)%Z -> (i < 3)%nat ->
        exists l',
          @Y_to_xI Example.env 2 ([0.5; 0.5] !!! i) ([16; 16] !!! i)
            ([0.5; 0.5] !!! i) ([0.5; 0.999] !!! i)
          = (l', Return (Orbits.inclinations !!! i)))
  /\ (forall j, (2 <= Z.of_nat j)%Z ->
        Orbits.inclinations !!! j = [0; 0; 0] !!! j).
Proof.
  apply (@Y_to_xI_vector_spec Example.env 2 [0; 0; 0]
           [0.5; 0.5] [16; 16] [0.5; 0.5] [0.5; 0.999] 2 []
           Orbits.inclinations).
  vm_compute. reflexivity.
Defined.

Lemma KerrGeoCoordinateFrequenciesVectorized_frame_witness :
  (length (OmegaPhi_ Orbits.written_first) = 2%nat
   /\ length (OmegaTheta_ Orbits.written_first) = 2%nat
   /\ length (OmegaR_ Orbits.written_first) = 2%nat)
  /\ (forall j, (1 <= Z.of_nat j)%Z ->
        OmegaPhi_ Orbits.written_first !!! j = OmegaPhi_ Example.buffers !!! j
        /\ OmegaTheta_ Orbits.written_first !!! j
           = OmegaTheta_ Example.buffers !!! j
        /\ OmegaR_ Orbits.written_first !!! j = OmegaR_ Example.buffers !!! j)
  /\ ((1 <= 0)%Z ->
      @nil event = [] /\ Orbits.written_first = Example.buffers).
Proof.
  apply (@KerrGeoCoordinateFrequenciesVectorized_frame Example.env
           Example.buffers Example.spins Example.ps Example.es Example.xs
           1 [] Orbits.written_first).
  vm_compute. reflexivity.
Defined.


Lemma KerrGeoCoordinateFrequencies_equatorial_witness :
  snd (@KerrGeoCoordinateFrequencies Example.env 0.5 16 0 1)
  = snd (@KerrGeoCoordinateFrequencies Example.env 0.5 16 0.5 (-1)).
Proof.
  apply (@KerrGeoCoordinateFrequencies_equatorial Example.env
           0.5 16 0 1 0.5 (-1)); reflexivity.
Defined.

Lemma KerrGeoCoordinateFrequencies_generic_nan_raises_witness :
  @KerrGeoCoordinateFrequencies Orbits.env 1 10 0.1 0.5
  = ([] ++ [printf "(a, p, e, x) = (%f , %f , %f , %f) \n" [1; 10; 0.1; 0.5]],
     Throw (invalid_argument "Nan in fundamental frequencies" [])).
Proof.
  apply (@KerrGeoCoordinateFrequencies_generic_nan_raises Orbits.env
           1 10 0.1 0.5 [] nan nan 3.5794690852715139 2.7010748997098495).
  - reflexivity.
  - vm_compute. reflexivity.
  - reflexivity.
Defined.

Lemma solver_iterations_witness :
  @solver_loop Example.never_converges (Z.to_nat max_iter)
    (snd (@gsl_root_fsolver_set Example.never_converges
            (fun x => @separatrix_polynomial_polar Example.never_converges
                        x Example.polar_params)
            Example.polar_lo 8))
    0
  = (GSL_CONTINUE, 1000%Z, 6.2283191029904543, 6.2283191029904543,
     6.2283191029904552)
  /\ (1 <= 1000 <= 1000)%Z /\ (GSL_CONTINUE = GSL_CONTINUE -> 1000%Z = 1000%Z).
Proof.
  split; [vm_compute; reflexivity | ].
  apply (@solver_iterations Example.never_converges
           (snd (@gsl_root_fsolver_set Example.never_converges
                   (fun x => @separatrix_polynomial_polar
                               Example.never_converges x Example.polar_params)
                   Example.polar_lo 8))
           GSL_CONTINUE 1000 6.2283191029904543 6.2283191029904543
           6.2283191029904552).
  vm_compute. reflexivity.
Defined.

Lemma Y_to_xI_nan_witness :
  @Y_to_xI Example.env 2 0.5 16 0.5 nan
  = @solver Example.env 2 (params_holder.mk 0.5 16 0.5 0 nan) Y_to_xI_eq
      (- YLIM) YLIM
  /\ forall x,
       is_nan (@Y_to_xI_eq Example.env x (params_holder.mk 0.5 16 0.5 0 nan))
       = true.
Proof.
  apply (@Y_to_xI_nan Example.env 2 0.5 16 0.5 nan). reflexivity.
Defined.

Lemma Elliptic_negative_parameter_witness :
  @EllipticK Example.env (-1)
  = ([], Throw (invalid_argument "EllipticK failed with argument k: %e" [-1]))
  /\ @EllipticE Example.env (-1)
     = ([],
        Throw (invalid_argument "EllipticE failed with argument k: %e" [-1]))
  /\ @EllipticPi Example.env 0.5 (-1)
     = ([printf "55: %e\n" [-1]],
        Throw (invalid_argument
                 "EllipticPi failed with arguments (k,n): (%e,%e)" [-1; 0.5]))
  /\ @EllipticF Orbits.incomplete 1 (-1)
     = ([],
        Throw (invalid_argument
                 "EllipticF failed with arguments phi:%e k: %e" [1; -1]))
  /\ @EllipticEIncomp Orbits.incomplete 1 (-1)
     = ([],
        Throw (invalid_argument
                 "EllipticEIncomp failed with argument k: %e" [-1]))
  /\ @EllipticPiIncomp Orbits.incomplete 0.5 1 (-1)
     = ([],
        Throw (invalid_argument
                 "EllipticPiIncomp failed with argument k: %e" [-1])).
Proof.
  exact (@Elliptic_negative_parameter Example.env Orbits.incomplete
           (-1) 0.5 1 eq_refl).
Defined.

Lemma SchwarzEccFlux_deriv_func_returns_witness :
  xdot Orbits.flux_out = 0
  /\ (gtb 0 0 = false -> edot Orbits.flux_out = 0)
  /\ (gtb (6 + 2 * 0) 16 = false ->
      Omega_theta Orbits.flux_out = Omega_phi Orbits.flux_out)
  /\ (forall a' x',
        @SchwarzEccFlux.deriv_func Example.env Example.probe
          (@SchwarzEccFlux.Build_interp_params Example.probe tt tt)
          Example.before 1 a' 16 0 x'
        = ([], Return Orbits.flux_out)).
Proof.
  apply (@SchwarzEccFlux_deriv_func_returns Example.env Example.probe
           (@SchwarzEccFlux.Build_interp_params Example.probe tt tt)
           Example.before 1 0 16 0 1 [] Orbits.flux_out).
  vm_compute. reflexivity.
Defined.

Lemma KerrEccentricEquatorial_deriv_func_returns_witness :
  (exists l1 p_sep, @get_separatrix Example.env 1 0 0 1 = (l1, Return p_sep))
  /\ xdot (zeroed Example.before) = 0
  /\ (gtb 0 1e-6 = false -> edot (zeroed Example.before) = 0).
Proof.
  apply (@KerrEccentricEquatorial_deriv_func_returns Example.env Example.probe
           1%nat (@KerrEccentricEquatorial.Build_interpolants Example.probe
                    tt tt tt tt)
           Example.before 1 0 5 0 1 [] (zeroed Example.before)).
  vm_compute. reflexivity.
Defined.

Lemma KerrEccentricEquatorial_negative_eccentricity_witness :
  @KerrEccentricEquatorial.deriv_func Example.env Example.probe 1%nat
    (@KerrEccentricEquatorial.Build_interpolants Example.probe tt tt tt tt)
    Example.before 1 0 16 (-0.1) 1
  = (p_sep <- @get_separatrix Example.env 1 0 (-0.1) 1 ;;
     ret (zeroed Example.before)).
Proof.
  apply (@KerrEccentricEquatorial_negative_eccentricity Example.env
           Example.probe). reflexivity.
Defined.

Lemma KerrEccentricEquatorial_nan_radius_throws_witness :
  @KerrEccentricEquatorial.deriv_func Example.env Orbits.nan_engine 1%nat
    (@KerrEccentricEquatorial.Build_interpolants Orbits.nan_engine
       tt tt tt tt)
    Example.before 1 0 7 0.5 1
  = ([] ++ []
     ++ [printf " a =%f\tp=%f\te=%f\tx=%f\t%f plso =%f\n"
                [0; 7; 0.5; 1;
                 pow (nan / (1 / (0 + pow (7 / (1 + 0.5)) 1.5))) (2 / 3)
                 * (1 + 0.5);
                 7];
         printf "omegaphi circ %f omegaphi %f omegar %f\n"
                [1 / (0 + pow (7 / (1 + 0.5)) 1.5); nan; nan]],
     Throw std_exception).
Proof.
  apply (@KerrEccentricEquatorial_nan_radius_throws Example.env
           Orbits.nan_engine 1%nat
           (@KerrEccentricEquatorial.Build_interpolants Orbits.nan_engine
              tt tt tt tt)
           Example.before 1 0 7 0.5 1 [] 7 [] nan nan nan).
  - reflexivity.
  - reflexivity.
  - reflexivity.
  - vm_compute. reflexivity.
Defined.

Lemma KerrEqSpinFrequenciesCorrVectorized_spec_witness :
  OmegaTheta_ Orbits.corrected = OmegaTheta_ Example.buffers
  /\ length Orbits.corrected_log = (2 * Z.to_nat 1)%nat
  /\ (length (OmegaPhi_ Orbits.corrected) = 2%nat
      /\ length (OmegaR_ Orbits.corrected) = 2%nat)
  /\ (forall i, (Z.of_nat i < 1)%Z -> (i < 2)%nat -> (i < 2)%nat ->
        exists l',
          @SecondarySpin.KerrEqSpinFrequenciesCorrection Orbits.env
            ([0.9; 0.9] !!! i) ([10; 10] !!! i) ([0.1; 0.1] !!! i)
            ([1; 1] !!! i)
          = (l', Return (OmegaR_ Orbits.corrected !!! i,
                         OmegaPhi_ Orbits.corrected !!! i)))
  /\ (forall j, (1 <= Z.of_nat j)%Z ->
        OmegaPhi_ Orbits.corrected !!! j = OmegaPhi_ Example.buffers !!! j
        /\ OmegaR_ Orbits.corrected !!! j = OmegaR_ Example.buffers !!! j).
Proof.
  apply (@KerrEqSpinFrequenciesCorrVectorized_spec Orbits.env
           Example.buffers [0.9; 0.9] [10; 10] [0.1; 0.1] [1; 1] 1
           Orbits.corrected_log Orbits.corrected).
  vm_compute. reflexivity.
Defined.

Lemma frequencies_return_quietly_witness :
  @nil event = []
  /\ (forall out a p e x n l out',
        @KerrGeoCoordinateFrequenciesVectorized Example.env out a p e x n
        = (l, Return out') ->
        l = []).
Proof.
  split.
  - apply (proj1 (@frequencies_return_quietly Example.env) 0.5 16 0 1 []
             (0.015503875968992248, 0.015282761914328976,
              0.012827715402009424)).
    vm_compute. reflexivity.
  - exact (proj2 (proj2 (@frequencies_return_quietly Example.env))).
Defined.

Lemma pn5_near_equatorial_witness :
  @pn5 Example.env Example.probe Orbits.constant_series 2 Example.before
    1 0.5 16 0 (-1)
  = ([],
     Throw (invalid_argument
              "KerrGeoEquatorialCoordinateFrequencies called" []))
  /\ @pn5 Orbits.env Example.probe Orbits.constant_series 2 Example.before
       1 1 10 0.1 0.999
     = ('(Omega_phi, Omega_theta, Omega_r)
          <- @KerrGeoCoordinateFrequencies Orbits.env 1 10 0.1 0.999 ;;
        ret {| pdot := 1 * -1; edot := 1 * -2; xdot := 1 * -3;
               Omega_phi := Omega_phi;
               Omega_theta := Omega_theta;
               Omega_r := Omega_r |}).
Proof.
  split.
  - exact (@pn5_near_equatorial Example.env Example.probe
             Orbits.constant_series 2 Example.before 1 0.5 16 0 (-1)
             eq_refl).
  - exact (@pn5_near_equatorial Orbits.env Example.probe
             Orbits.constant_series 2 Example.before 1 1 10 0.1 0.999
             eq_refl).
Defined.
